(** * subprocess: shell-like pipelines over external processes

    A shallow embedding of the Go package [subprocess]
    (executable.go, pipeline.go, pipeline_struct.go, process.go, visitor.go).

    The operating system is an explicit oracle ([OS]): it answers whether a
    command can be started and, for a started process, which bytes it writes
    and how it terminates given the bytes it reads.  Everything the package
    itself decides (dispatch on the operation tag, short-circuiting, result
    trees, background-job bookkeeping, draining) is computed by the
    definitions below.  Effects are threaded through a small state monad
    whose state is the log of externally visible events; a Go panic (nil
    dereference, [panic("unknown operation type")]) is an outcome of its
    own. *)

From Stdlib Require Import ZArith List Bool Lia.
From Stdlib.Strings Require Import String Byte.
From stdpp Require Import base list.
Import ListNotations.

Set Default Proof Using "Type".
Set Warnings "-register-all".

(** ** Data model (pipeline.go, process.go) *)

(** [OperationType], pipeline.go:9-17. *)
Inductive OperationType : Type :=
  | OpSingle
  | OpPipe
  | OpAnd
  | OpOr
  | OpBackground.

Definition OperationType_eqb (a b : OperationType) : bool :=
  match a, b with
  | OpSingle, OpSingle | OpPipe, OpPipe | OpAnd, OpAnd
  | OpOr, OpOr | OpBackground, OpBackground => true
  | _, _ => false
  end.

(** [time.Duration]: a count of nanoseconds. *)
Definition Duration : Type := Z.
Definition Second : Duration := 1000000000%Z.

(** [os.ProcessState] as far as the package looks at it. *)
Inductive ProcessState : Type :=
  | Exited (status : Z)
  | Signaled (sig : Z).

Definition Success (st : ProcessState) : bool :=
  match st with
  | Exited status => (status =? 0)%Z
  | Signaled _ => false
  end.

(** [ProcessState.ExitCode]: the status of an exited process, -1 for a
    process terminated by a signal. *)
Definition ProcessState_ExitCode (st : ProcessState) : Z :=
  match st with
  | Exited status => status
  | Signaled _ => (-1)%Z
  end.

(** The two errors a [context.Context] reports. *)
Inductive ctx_error : Type :=
  | Canceled
  | DeadlineExceeded.

(** Go's [error] values that occur in the package.  [ExitError] is
    [*exec.ExitError]; [WrapError] is [fmt.Errorf("...: %w", err)]. *)
Inductive error : Type :=
  | ExitError (st : ProcessState)
  | CtxError (c : ctx_error)
  | ErrorString (msg : string)
  | WrapError (msg : string) (inner : error).

(** [Result], pipeline.go:39-50.  A [*Result] that may be nil is an
    [option Result]; [Children] is a slice of such pointers. *)
Inductive Result : Type := mkResult {
  Type_ : OperationType;
  Stdout : list byte;
  Stderr : list byte;
  ExitCode : Z;
  Error : option error;
  Skipped : bool;
  Children : list (option Result);
  BackgroundErrors : list error
}.

(** The zero value [Result{Type: ty}]. *)
Definition zeroResult (ty : OperationType) : Result :=
  {| Type_ := ty; Stdout := []; Stderr := []; ExitCode := 0%Z;
     Error := None; Skipped := false; Children := [];
     BackgroundErrors := [] |}.

(** [Options]/[Process], process.go:9-19. *)
Record Process : Type := mkProcess {
  Command : string;
  Args : list string
}.

(** [NewProcess], process.go:39-47: never fails. *)
Definition NewProcess (cmd : string) (args : list string) : Process + error :=
  inl {| Command := cmd; Args := args |}.

(** [Executable]: the interface with its two implementations, the leaf
    [ExecutableProcess] (executable.go:10-13) and the composite [Pipeline]
    (pipeline_struct.go:10-15).  [right] is nil for a Background node. *)
Inductive Executable : Type :=
  | ExecutableProcess (process : Process) (shutdownTimeout : Duration)
  | Pipeline (operation : OperationType) (left : Executable)
             (right : option Executable) (shutdownTimeout : Duration).

Definition shutdownTimeoutOf (e : Executable) : Duration :=
  match e with
  | ExecutableProcess _ t => t
  | Pipeline _ _ _ t => t
  end.

(** ** Combinators (executable.go:16-76, pipeline_struct.go:50-88)

    Both implementations build the same node: the receiver becomes the left
    operand and its timeout is copied. *)

Definition NewExecutable (cmd : string) (args : list string)
  : Executable + error :=
  match NewProcess cmd args with
  | inr err => inr err
  | inl process => inl (ExecutableProcess process (5 * Second)%Z)
  end.

Definition Pipe (e next : Executable) : Executable :=
  Pipeline OpPipe e (Some next) (shutdownTimeoutOf e).

Definition And (e next : Executable) : Executable :=
  Pipeline OpAnd e (Some next) (shutdownTimeoutOf e).

Definition Or (e next : Executable) : Executable :=
  Pipeline OpOr e (Some next) (shutdownTimeoutOf e).

Definition Background (e : Executable) : Executable :=
  Pipeline OpBackground e None (shutdownTimeoutOf e).

(** ** Contexts *)

(** A [context.Context] as the package observes it: [ctx.Err()].  The
    context is sampled once per run; cancellation in the middle of a run is
    a matter of timing and outside this model. *)
Record Context : Type := mkContext {
  ctx_Err : option ctx_error
}.

Definition context_Background : Context := {| ctx_Err := None |}.

(** The trigger returned by [context.WithCancel]: it is bound to the
    context it cancels. *)
Inductive CancelFunc : Type :=
  | CancelOf (c : Context).

(** [context.WithCancel(parent)]: a derived context, done exactly when the
    parent is (until its trigger is pulled), and its trigger. *)
Definition context_WithCancel (parent : Context) : Context * CancelFunc :=
  let c := {| ctx_Err := ctx_Err parent |} in (c, CancelOf c).

(** ** Channels *)

(** A buffered channel: its capacity and the values waiting in it. *)
Record Chan (A : Type) : Type := mkChan {
  chan_cap : nat;
  chan_buf : list A
}.
Arguments mkChan {A} _ _.
Arguments chan_cap {A} _.
Arguments chan_buf {A} _.

Definition make_chan {A : Type} (cap : nat) : Chan A :=
  {| chan_cap := cap; chan_buf := [] |}.

(** A send that does not block; [None] when the buffer is full. *)
Definition chan_send {A : Type} (c : Chan A) (a : A) : option (Chan A) :=
  if Nat.ltb (List.length (chan_buf c)) (chan_cap c)
  then Some {| chan_cap := chan_cap c; chan_buf := chan_buf c ++ [a] |}
  else None.

(** A receive; [None] when nothing is waiting. *)
Definition chan_recv {A : Type} (c : Chan A) : option (A * Chan A) :=
  match chan_buf c with
  | [] => None
  | a :: rest => Some (a, {| chan_cap := chan_cap c; chan_buf := rest |})
  end.

(** ** The visitor and its jobs (visitor.go:22-33) *)

Record BackgroundJob : Type := mkBackgroundJob {
  exec : Executable;
  done : Chan Result;
  cancel : CancelFunc
}.

Record ExecutionVisitor : Type := mkExecutionVisitor {
  ctx : Context;
  shutdownTimeout : Duration;
  backgroundJobs : list BackgroundJob
}.

(** ** Events, worlds and the execution monad *)

(** What a run does that can be seen from outside, in program order. *)
Inductive Event : Type :=
  | EvSpawn (p : Process)       (* [cmd.Start] succeeded: a process exists *)
  | EvLaunch (e : Executable)   (* [go func() { exec.Run(bgCtx) ... }()] *)
  | EvDrain (jobs : nat)        (* [WaitForBackground] entered *)
  | EvAwait (e : Executable)    (* the receive [<-job.done] returned *)
  | EvCancel (e : Executable).  (* [job.cancel()] *)

Definition World : Type := list Event.

Inductive outcome (A : Type) : Type :=
  | Done (a : A) (w : World)
  | Panic (msg : string).
Arguments Done {A} _ _.
Arguments Panic {A} _.

Definition M (A : Type) : Type := World -> outcome A.

Definition ret {A : Type} (a : A) : M A := fun w => Done a w.

Definition bind {A B : Type} (m : M A) (k : A -> M B) : M B :=
  fun w =>
    match m w with
    | Done a w' => k a w'
    | Panic msg => Panic msg
    end.

Definition panic {A : Type} (msg : string) : M A := fun _ => Panic msg.

Definition emit (ev : Event) : M unit := fun w => Done tt (w ++ [ev]).

(** Dereferencing a pointer that may be nil. *)
Definition deref {A : Type} (p : option A) : M A :=
  match p with
  | Some a => ret a
  | None => panic "invalid memory address or nil pointer dereference"
  end.

Declare Scope go_scope.
Delimit Scope go_scope with go.
Notation "'do' x <- c1 ;; c2" := (bind c1 (fun x => c2))
  (at level 10, x name, c1 at level 99, c2 at level 200) : go_scope.
Notation "'do' ' pat <- c1 ;; c2" :=
  (bind c1 (fun x => match x with pat => c2 end))
  (at level 10, pat pattern, c1 at level 99, c2 at level 200) : go_scope.
Open Scope go_scope.

(** Processes actually started, in order. *)
Fixpoint spawned (w : World) : list Process :=
  match w with
  | [] => []
  | EvSpawn p :: w' => p :: spawned w'
  | _ :: w' => spawned w'
  end.

(** Number of times [WaitForBackground] was entered. *)
Fixpoint drains (w : World) : nat :=
  match w with
  | [] => 0
  | EvDrain _ :: w' => S (drains w')
  | _ :: w' => drains w'
  end.

(** Field assignments on a [Result] ([result.ExitCode = ...] and so on). *)
Definition setStdout (r : Result) (x : list byte) : Result :=
  mkResult (Type_ r) x (Stderr r) (ExitCode r) (Error r) (Skipped r)
           (Children r) (BackgroundErrors r).
Definition setStderr (r : Result) (x : list byte) : Result :=
  mkResult (Type_ r) (Stdout r) x (ExitCode r) (Error r) (Skipped r)
           (Children r) (BackgroundErrors r).
Definition setExitCode (r : Result) (x : Z) : Result :=
  mkResult (Type_ r) (Stdout r) (Stderr r) x (Error r) (Skipped r)
           (Children r) (BackgroundErrors r).
Definition setError (r : Result) (x : option error) : Result :=
  mkResult (Type_ r) (Stdout r) (Stderr r) (ExitCode r) x (Skipped r)
           (Children r) (BackgroundErrors r).
Definition setSkipped (r : Result) (x : bool) : Result :=
  mkResult (Type_ r) (Stdout r) (Stderr r) (ExitCode r) (Error r) x
           (Children r) (BackgroundErrors r).
Definition setChildren (r : Result) (x : list (option Result)) : Result :=
  mkResult (Type_ r) (Stdout r) (Stderr r) (ExitCode r) (Error r) (Skipped r)
           x (BackgroundErrors r).
Definition setBackgroundErrors (r : Result) (x : list error) : Result :=
  mkResult (Type_ r) (Stdout r) (Stderr r) (ExitCode r) (Error r) (Skipped r)
           (Children r) x.

(** ** The operating system *)

(** How a started process ends, as [cmd.Wait] learns it. *)
Inductive Termination : Type :=
  | TermState (st : ProcessState)  (* the process was reaped in state [st] *)
  | TermError (msg : string).      (* [Wait] failed for another reason *)

(** The external collaborator.  Failures carry the message of the error the
    Go runtime would build.  [os_behave p input] is what process [p] writes
    on its combined output and how it ends when [input] is what reaches its
    standard input.  [os_selectCtx i] resolves the one scheduling choice of
    the package: whether the [select] of the drain, for job number [i],
    takes the context case when both cases are ready. *)
Record OS : Type := mkOS {
  os_pipeErr : Process -> option string;
  os_lookPathErr : Process -> option string;
  os_startErr : Process -> option string;
  os_behave : Process -> list byte -> list byte * Termination;
  os_selectCtx : nat -> bool
}.

(** [ProcessRunner], process.go:21-25: the command and what has been
    written to its standard input. *)
Record ProcessRunner : Type := mkProcessRunner {
  cmd : Process;
  stdin : list byte
}.

Section Engine.

Variable os : OS.

(** *** process.go *)

(** [exec.Cmd.Start]: the lookup error recorded by [exec.CommandContext]
    comes first, then a context that is already done is refused, then the
    spawn itself may fail.  Only the last step creates a process. *)
Definition cmd_Start (c : Context) (p : Process) : M (option error) :=
  match os_lookPathErr os p with
  | Some msg => ret (Some (ErrorString msg))
  | None =>
      match ctx_Err c with
      | Some ce => ret (Some (CtxError ce))
      | None =>
          match os_startErr os p with
          | Some msg => ret (Some (ErrorString msg))
          | None => do _ <- emit (EvSpawn p) ;; ret None
          end
      end
  end.

(** [Process.Exec], process.go:49-89. *)
Definition Exec (p : Process) (c : Context) : M (ProcessRunner + error) :=
  match os_pipeErr os p with
  | Some msg => ret (inr (ErrorString msg))
  | None =>
      do err <- cmd_Start c p ;;
      match err with
      | Some e => ret (inr e)
      | None => ret (inl {| cmd := p; stdin := [] |})
      end
  end.

(** [cmd.Wait]: nil for a successful exit, an [*exec.ExitError] for any
    other process state. *)
Definition cmd_Wait (t : Termination) : option error :=
  match t with
  | TermState st => if Success st then None else Some (ExitError st)
  | TermError msg => Some (ErrorString msg)
  end.

(** [io.ReadAll(runner.ReaderWriter())]. *)
Definition ReadAll (r : ProcessRunner) : list byte :=
  fst (os_behave os (cmd r) (stdin r)).

(** [ProcessRunner.Wait], process.go:31-33. *)
Definition Wait (r : ProcessRunner) : option error :=
  cmd_Wait (snd (os_behave os (cmd r) (stdin r))).

(** [io.Copy(dst.ReaderWriter(), src.ReaderWriter())] followed by
    [dst.ReaderWriter().Close()]: everything [src] writes reaches the
    standard input of [dst]. *)
Definition Copy (dst src : ProcessRunner) : ProcessRunner :=
  {| cmd := cmd dst; stdin := stdin dst ++ ReadAll src |}.

(** *** visitor.go *)

(** [getExitCode], visitor.go:394-403. *)
Definition getExitCode (err : option error) : Z :=
  match err with
  | None => 0%Z
  | Some (ExitError st) => ProcessState_ExitCode st
  | Some _ => (-1)%Z
  end.

(** [VisitProcess], visitor.go:36-68. *)
Definition VisitProcess (v : ExecutionVisitor) (process : Process)
  : M (Result * option error) :=
  do started <- Exec process (ctx v) ;;
  match started with
  | inr err =>
      ret (setExitCode
             (setError (zeroResult OpSingle)
                (Some (WrapError "failed to start process" err)))
             (-1)%Z,
           Some err)
  | inl runner =>
      let output := ReadAll runner in
      let err := Wait runner in
      let exitCode :=
        match err with
        | None => 0%Z
        | Some (ExitError st) => ProcessState_ExitCode st
        | Some _ => (-1)%Z
        end in
      ret (setError (setExitCode (setStdout (zeroResult OpSingle) output)
                       exitCode) err,
           err)
  end.

(** What [startProcess] returns: a runner, a result and an error, each of
    which may be nil. *)
Definition started : Type :=
  (option ProcessRunner * option Result * option error)%type.

(** The methods of an operand that is the nil interface. *)
Definition nil_Run (_ : Context) : M (Result * option error) :=
  panic "invalid memory address or nil pointer dereference".
Definition nil_startProcess (_ : ExecutionVisitor) : M started :=
  panic "invalid memory address or nil pointer dereference".

(** [executePipe], visitor.go:286-341.  An operand is given by what
    [v.startProcess] does on it. *)
Definition executePipe (v : ExecutionVisitor)
    (left_startProcess right_startProcess : ExecutionVisitor -> M started)
  : M (option Result * option Result * option error) :=
  do '(leftRunner, leftResult, err) <- left_startProcess v ;;
  match err with
  | Some e =>
      ret (leftResult, Some (setExitCode (zeroResult OpSingle) (-1)%Z), Some e)
  | None =>
      do '(rightRunner, rightResult, err) <- right_startProcess v ;;
      match err with
      | Some e => ret (leftResult, rightResult, Some e)
      | None =>
          (* the copying goroutine and the read of the final output both
             go through the runners *)
          do rightR <- deref rightRunner ;;
          do leftR <- deref leftRunner ;;
          let rightR := Copy rightR leftR in
          let output := ReadAll rightR in
          let leftErr := Wait leftR in
          let rightErr := Wait rightR in
          let leftResult :=
            setError (setExitCode (zeroResult OpSingle) (getExitCode leftErr))
                     leftErr in
          let rightResult :=
            setError (setExitCode (setStdout (zeroResult OpSingle) output)
                        (getExitCode rightErr)) rightErr in
          match leftErr with
          | Some _ => ret (Some leftResult, Some rightResult, leftErr)
          | None =>
              match rightErr with
              | Some _ => ret (Some leftResult, Some rightResult, rightErr)
              | None => ret (Some leftResult, Some rightResult, None)
              end
          end
      end
  end.

(** [startNestedPipe], visitor.go:371-392. *)
Definition startNestedPipe (v : ExecutionVisitor)
    (left_startProcess right_startProcess : ExecutionVisitor -> M started)
  : M started :=
  do '(leftRunner, _, err) <- left_startProcess v ;;
  match err with
  | Some e =>
      ret (None,
           Some (setExitCode (setError (zeroResult OpPipe) (Some e)) (-1)%Z),
           Some e)
  | None =>
      do '(rightRunner, _, err) <- right_startProcess v ;;
      match err with
      | Some e =>
          ret (None,
               Some (setExitCode (setError (zeroResult OpPipe) (Some e))
                       (-1)%Z),
               Some e)
      | None =>
          do rightR <- deref rightRunner ;;
          do leftR <- deref leftRunner ;;
          ret (Some (Copy rightR leftR), None, None)
      end
  end.

(** [VisitPipe], visitor.go:71-108. *)
Definition VisitPipe (v : ExecutionVisitor)
    (left_startProcess right_startProcess : ExecutionVisitor -> M started)
  : M (Result * option error) :=
  match ctx_Err (ctx v) with
  | Some ce =>
      let err := CtxError ce in
      ret (setError (zeroResult OpPipe) (Some err), Some err)
  | None =>
      do '(leftResult, rightResult, err) <-
         executePipe v left_startProcess right_startProcess ;;
      let result := setChildren (zeroResult OpPipe) [leftResult; rightResult] in
      match err with
      | Some e =>
          let result := setError result (Some e) in
          do l <- deref leftResult ;;
          match Error l with
          | Some _ =>
              ret (setStderr (setExitCode result (ExitCode l)) (Stderr l),
                   Some e)
          | None =>
              do r <- deref rightResult ;;
              ret (setStderr (setExitCode result (ExitCode r)) (Stderr r),
                   Some e)
          end
      | None =>
          do r <- deref rightResult ;;
          ret (setExitCode (setStderr (setStdout result (Stdout r)) (Stderr r))
                 (ExitCode r),
               None)
      end
  end.

(** The synthetic child standing for an operand that was not run. *)
Definition skippedResult : Result := setSkipped (zeroResult OpSingle) true.

(** [err != nil]. *)
Definition notNil {A : Type} (x : option A) : bool :=
  match x with Some _ => true | None => false end.

(** [VisitAnd], visitor.go:111-147.  An operand is given by its [Run]. *)
Definition VisitAnd (v : ExecutionVisitor)
    (left_Run right_Run : Context -> M (Result * option error))
  : M (Result * option error) :=
  do '(leftResult, err) <- left_Run (ctx v) ;;
  let result := setChildren (zeroResult OpAnd) [Some leftResult] in
  if notNil err || negb (ExitCode leftResult =? 0)%Z then
    let rightResult := skippedResult in
    let result := setChildren result (Children result ++ [Some rightResult]) in
    let result := setExitCode result (ExitCode leftResult) in
    let result := setError result (Error leftResult) in
    let result := setStdout result (Stdout leftResult) in
    let result := setStderr result (Stderr leftResult) in
    ret (result, Error leftResult)
  else
    do '(rightResult, err) <- right_Run (ctx v) ;;
    let result := setChildren result (Children result ++ [Some rightResult]) in
    let result := setExitCode result (ExitCode rightResult) in
    let result := setError result (Error rightResult) in
    let result := setStdout result (Stdout rightResult) in
    let result := setStderr result (Stderr rightResult) in
    ret (result, err).

(** [VisitOr], visitor.go:151-193. *)
Definition VisitOr (v : ExecutionVisitor)
    (left_Run right_Run : Context -> M (Result * option error))
  : M (Result * option error) :=
  do '(leftResult, err) <- left_Run (ctx v) ;;
  let result := setChildren (zeroResult OpOr) [Some leftResult] in
  if negb (notNil err) && (ExitCode leftResult =? 0)%Z then
    let rightResult := skippedResult in
    let result := setChildren result (Children result ++ [Some rightResult]) in
    let result := setExitCode result (ExitCode leftResult) in
    let result := setStdout result (Stdout leftResult) in
    let result := setStderr result (Stderr leftResult) in
    ret (result, None)
  else
    do '(rightResult, rightErr) <- right_Run (ctx v) ;;
    let result := setChildren result (Children result ++ [Some rightResult]) in
    let result := setExitCode result (ExitCode rightResult) in
    let result := setStdout result (Stdout rightResult) in
    let result := setStderr result (Stderr rightResult) in
    if negb (notNil rightErr) && (ExitCode rightResult =? 0)%Z then
      ret (setError result None, None)
    else
      ret (setError result (Error rightResult), rightErr).

(** [VisitBackground], visitor.go:196-223.  The detached goroutine runs
    [exec.Run(bgCtx)] and sends the result on [job.done]; here it runs to
    completion at once, which is one of its possible schedules, so that the
    channel already holds what the drain will later receive. *)
Definition VisitBackground (v : ExecutionVisitor) (exec0 : Executable)
    (exec_Run : Context -> M (Result * option error))
  : M (Result * option error * ExecutionVisitor) :=
  let '(bgCtx, cancel0) := context_WithCancel context_Background in
  let job := {| exec := exec0; done := make_chan 1; cancel := cancel0 |} in
  do _ <- emit (EvLaunch exec0) ;;
  do '(result, _) <- exec_Run bgCtx ;;
  let job :=
    match chan_send (done job) result with
    | Some ch => {| exec := exec job; done := ch; cancel := cancel job |}
    | None => job
    end in
  let v := {| ctx := ctx v; shutdownTimeout := shutdownTimeout v;
              backgroundJobs := backgroundJobs v ++ [job] |} in
  let result := setExitCode (zeroResult OpBackground) 0%Z in
  ret (result, None, v).

(** The loop of [WaitForBackground], visitor.go:232-253, from job number
    [i] on.  The first case of the [select] needs a value waiting on
    [job.done], the second a context that is done. *)
Fixpoint drainJobs (v : ExecutionVisitor) (i : nat)
    (jobs : list BackgroundJob) (result : Result) {struct jobs} : M Result :=
  match jobs with
  | [] => ret result
  | job :: rest =>
      let receive (bgResult : Result) : M Result :=
        do _ <- emit (EvAwait (exec job)) ;;
        match Error bgResult with
        | Some e =>
            ret (setBackgroundErrors result (BackgroundErrors result ++ [e]))
        | None => ret result
        end in
      let cancelled : M Result :=
        (* [job.cancel()], then wait for the job or for the shutdown
           timeout; nothing is kept in either case *)
        do _ <- emit (EvCancel (exec job)) ;; ret result in
      do result <-
         match chan_recv (done job), ctx_Err (ctx v) with
         | Some (bgResult, _), None => receive bgResult
         | Some (bgResult, _), Some _ =>
             if os_selectCtx os i then cancelled else receive bgResult
         | None, Some _ => cancelled
         | None, None => panic "all goroutines are asleep - deadlock!"
         end ;;
      drainJobs v (S i) rest result
  end.

(** [WaitForBackground], visitor.go:226-254. *)
Definition WaitForBackground (v : ExecutionVisitor) (result : Result)
  : M Result :=
  do _ <- emit (EvDrain (List.length (backgroundJobs v))) ;;
  if Nat.eqb (List.length (backgroundJobs v)) 0 then ret result
  else drainJobs v 0 (backgroundJobs v) result.

(** *** pipeline_struct.go, executable.go: [Run] *)

(** The [switch p.operation] of [Pipeline.Run], pipeline_struct.go:29-40. *)
Definition visit (visitor : ExecutionVisitor) (operation : OperationType)
    (left : Executable)
    (left_Run right_Run : Context -> M (Result * option error))
    (left_startProcess right_startProcess : ExecutionVisitor -> M started)
  : M (Result * option error * ExecutionVisitor) :=
  match operation with
  | OpPipe =>
      do '(result, err) <-
         VisitPipe visitor left_startProcess right_startProcess ;;
      ret (result, err, visitor)
  | OpAnd =>
      do '(result, err) <- VisitAnd visitor left_Run right_Run ;;
      ret (result, err, visitor)
  | OpOr =>
      do '(result, err) <- VisitOr visitor left_Run right_Run ;;
      ret (result, err, visitor)
  | OpBackground => VisitBackground visitor left left_Run
  | OpSingle => panic "unknown operation type"
  end.

(** [Pipeline.Run], pipeline_struct.go:18-48, on a node whose operands are
    given by their methods. *)
Definition Pipeline_Run (operation : OperationType) (left : Executable)
    (left_Run right_Run : Context -> M (Result * option error))
    (left_startProcess right_startProcess : ExecutionVisitor -> M started)
    (timeout : Duration) (c : Context) : M (Result * option error) :=
  let visitor :=
    {| ctx := c; shutdownTimeout := timeout; backgroundJobs := [] |} in
  do '(result, err, visitor) <-
     visit visitor operation left left_Run right_Run
           left_startProcess right_startProcess ;;
  match err with
  | None =>
      do result <- WaitForBackground visitor result ;;
      ret (result, err)
  | Some _ => ret (result, err)
  end.

(** [ExecutableProcess.Run] (executable.go:27-36) and [Pipeline.Run],
    together with [startProcess] (visitor.go:344-368), which runs any
    operand that is neither a leaf nor a Pipe through its own [Run]. *)
Fixpoint Run (e : Executable) {struct e}
  : Context -> M (Result * option error) :=
  match e with
  | ExecutableProcess process timeout =>
      fun c =>
        let visitor :=
          {| ctx := c; shutdownTimeout := timeout; backgroundJobs := [] |} in
        VisitProcess visitor process
  | Pipeline operation p_left p_right timeout =>
      Pipeline_Run operation p_left
        (Run p_left)
        (match p_right with Some r => Run r | None => nil_Run end)
        (fun v => startProcess v p_left)
        (match p_right with
         | Some r => fun v => startProcess v r
         | None => nil_startProcess
         end)
        timeout
  end
with startProcess (v : ExecutionVisitor) (e : Executable) {struct e}
  : M started :=
  match e with
  | ExecutableProcess process _ =>
      do r <- Exec process (ctx v) ;;
      match r with
      | inr err =>
          ret (None,
               Some (setExitCode (setError (zeroResult OpSingle) (Some err))
                       (-1)%Z),
               Some err)
      | inl runner => ret (Some runner, None, None)
      end
  | Pipeline operation p_left p_right timeout =>
      let left_startProcess := fun v => startProcess v p_left in
      let right_startProcess :=
        match p_right with
        | Some r => fun v => startProcess v r
        | None => nil_startProcess
        end in
      if OperationType_eqb operation OpPipe then
        startNestedPipe v left_startProcess right_startProcess
      else
        do '(result, err) <-
           Pipeline_Run operation p_left
             (Run p_left)
             (match p_right with Some r => Run r | None => nil_Run end)
             left_startProcess right_startProcess timeout (ctx v) ;;
        ret (None, Some result, err)
  end.

End Engine.

(** ** Nodes as heap objects (executable.go, pipeline_struct.go)

    In Go an [Executable] is a pointer to a node.  For running a pipeline a
    tree is enough, because running never writes to a node.  The one method
    that does write is [WithShutdownTimeout]; to state what it does, nodes
    live in a heap here, an address is an index into it, and [load] reads
    the tree an address denotes. *)

Module Store.

(** The combinator on trees, under a name the heap combinator below does
    not hide. *)
Definition treePipe : Executable -> Executable -> Executable := Pipe.

Definition ref : Type := nat.

Inductive Node : Type :=
  | NProcess (process : Process) (shutdownTimeout : Duration)
  | NPipeline (operation : OperationType) (left : ref) (right : option ref)
              (shutdownTimeout : Duration).

Abbreviation Heap := (list Node).

Definition timeoutOfNode (n : Node) : Duration :=
  match n with
  | NProcess _ t => t
  | NPipeline _ _ _ t => t
  end.

(** [p.shutdownTimeout = timeout]. *)
Definition setTimeout (n : Node) (d : Duration) : Node :=
  match n with
  | NProcess p _ => NProcess p d
  | NPipeline operation l r _ => NPipeline operation l r d
  end.

(** [&Pipeline{...}], [&ExecutableProcess{...}]: a fresh object. *)
Definition alloc (h : Heap) (n : Node) : Heap * ref :=
  (h ++ [n], length h).

Definition NewExecutable (h : Heap) (cmd0 : string) (args : list string)
  : Heap * ref :=
  alloc h (NProcess {| Command := cmd0; Args := args |} (5 * Second)%Z).

(** The combinators read the receiver's timeout; [None] stands for the
    nil dereference on a receiver that is no object. *)
Definition Pipe (h : Heap) (e next : ref) : option (Heap * ref) :=
  match h !! e with
  | Some n => Some (alloc h (NPipeline OpPipe e (Some next) (timeoutOfNode n)))
  | None => None
  end.

Definition And (h : Heap) (e next : ref) : option (Heap * ref) :=
  match h !! e with
  | Some n => Some (alloc h (NPipeline OpAnd e (Some next) (timeoutOfNode n)))
  | None => None
  end.

Definition Or (h : Heap) (e next : ref) : option (Heap * ref) :=
  match h !! e with
  | Some n => Some (alloc h (NPipeline OpOr e (Some next) (timeoutOfNode n)))
  | None => None
  end.

Definition Background (h : Heap) (e : ref) : option (Heap * ref) :=
  match h !! e with
  | Some n => Some (alloc h (NPipeline OpBackground e None (timeoutOfNode n)))
  | None => None
  end.

(** [WithShutdownTimeout], executable.go:78-82 and pipeline_struct.go:91-94:
    assign the field, return the receiver. *)
Definition WithShutdownTimeout (h : Heap) (e : ref) (timeout : Duration)
  : option (Heap * ref) :=
  match h !! e with
  | Some n => Some (<[e := setTimeout n timeout]> h, e)
  | None => None
  end.

(** The tree an address denotes, read with [fuel] levels of nodes. *)
Fixpoint load (fuel : nat) (h : Heap) (e : ref) : option Executable :=
  match fuel with
  | 0 => None
  | S fuel' =>
      match h !! e with
      | None => None
      | Some (NProcess p t) => Some (ExecutableProcess p t)
      | Some (NPipeline operation l r t) =>
          match load fuel' h l with
          | None => None
          | Some lt =>
              match r with
              | None => Some (Pipeline operation lt None t)
              | Some r' =>
                  match load fuel' h r' with
                  | None => None
                  | Some rt => Some (Pipeline operation lt (Some rt) t)
                  end
              end
          end
      end
  end.

(** Following operands from an address: [false] goes to the left operand,
    [true] to the right one. *)
Fixpoint walk (h : Heap) (q : ref) (path : list bool) : option ref :=
  match path with
  | [] => match h !! q with Some _ => Some q | None => None end
  | b :: rest =>
      match h !! q with
      | Some (NPipeline _ l r _) =>
          if b then match r with Some r' => walk h r' rest | None => None end
          else walk h l rest
      | _ => None
      end
  end.

(** Two nodes that differ in the timeout at most. *)
Definition sameButTimeout (n n' : Node) : Prop :=
  match n, n' with
  | NProcess p _, NProcess p' _ => p = p'
  | NPipeline o l r _, NPipeline o' l' r' _ => o = o' /\ l = l' /\ r = r'
  | _, _ => False
  end.

End Store.

(** ** Vocabulary of the statements

    A small operating system for examples: [true], [false], [echo], [cat]
    and [sleep] behave as on a POSIX system; any other command is not
    found. *)

Definition bytes (s : string) : list byte := list_byte_of_string s.

Definition sh_known (p : Process) : bool :=
  existsb (String.eqb (Command p))
    ["true"; "false"; "echo"; "cat"; "sleep"]%string.

Definition sh : OS :=
  {| os_pipeErr := fun _ => None;
     os_lookPathErr := fun p =>
       if sh_known p then None
       else Some "executable file not found in $PATH"%string;
     os_startErr := fun _ => None;
     os_behave := fun p input =>
       if String.eqb (Command p) "false"%string then ([], TermState (Exited 1))
       else if String.eqb (Command p) "echo" then
         (bytes (String.concat " " (Args p)) ++ [x0a], TermState (Exited 0))
       else if String.eqb (Command p) "cat" then (input, TermState (Exited 0))
       else ([], TermState (Exited 0));
     os_selectCtx := fun _ => true |}.

Definition leaf (c : string) (args : list string) : Executable :=
  ExecutableProcess {| Command := c; Args := args |} (5 * Second)%Z.

Definition live : Context := context_Background.
Definition cancelled : Context := {| ctx_Err := Some Canceled |}.

(** The visitor [Run] creates for a node with the default timeout under
    [live]. *)
Definition liveVisitor : ExecutionVisitor :=
  {| ctx := live; shutdownTimeout := (5 * Second)%Z; backgroundJobs := [] |}.

(** [subresult d r]: [d] occurs in the result tree rooted at [r]. *)
Inductive subresult : Result -> Result -> Prop :=
  | subresult_refl (r : Result) : subresult r r
  | subresult_child (d c r : Result) :
      In (Some c) (Children r) -> subresult d c -> subresult d r.

(** Exit code 0 exactly when the error is nil. *)
Definition exit_iff_nil (r : Result) : Prop :=
  ExitCode r = 0%Z <-> Error r = None.

(** The result of a Pipe that found its context done, or a result that
    mirrors one: the context's error with the exit code left at 0. *)
Definition unresolved (c : Context) (r : Result) : Prop :=
  ExitCode r = 0%Z /\
  exists ce, ctx_Err c = Some ce /\ Error r = Some (CtxError ce).

(** The child that [executePipe] makes up for a right operand it never
    started because the left one failed to start. *)
Definition notStarted : Result := setExitCode (zeroResult OpSingle) (-1)%Z.

Definition consistent (c : Context) (r : Result) : Prop :=
  exit_iff_nil r \/ unresolved c r \/ r = notStarted.

Definition tree_consistent (c : Context) (r : Result) : Prop :=
  forall d, subresult d r -> consistent c d.

(** What every [Run] guarantees about the pair it returns. *)
Record good (c : Context) (r : Result) (err : option error) : Prop := mkGood {
  good_err : err = None <-> Error r = None;
  good_nil : Error r = None -> ExitCode r = 0%Z;
  good_zero : ExitCode r = 0%Z -> Error r <> None -> unresolved c r;
  good_tree : forall x, In (Some x) (Children r) -> tree_consistent c x
}.

(** What every [startProcess] guarantees about the triple it returns. *)
Definition good_started (c : Context) (s : started) : Prop :=
  match s with
  | (_, res, Some _) =>
      exists r, res = Some r /\ Error r <> None /\
                (ExitCode r = 0%Z -> unresolved c r) /\ tree_consistent c r
  | (_, res, None) =>
      forall r, res = Some r ->
                Error r = None /\ ExitCode r = 0%Z /\ tree_consistent c r
  end.

Definition Run_good (f : Context -> M (Result * option error)) : Prop :=
  forall c w r err w', f c w = Done (r, err) w' -> good c r err.

Definition start_good (g : ExecutionVisitor -> M started) : Prop :=
  forall v w s w', g v w = Done s w' -> good_started (ctx v) s.

(** The drain changes nothing but the background-errors list. *)
Definition same_but_BackgroundErrors (r r' : Result) : Prop :=
  Type_ r' = Type_ r /\ Stdout r' = Stdout r /\ Stderr r' = Stderr r /\
  ExitCode r' = ExitCode r /\ Error r' = Error r /\
  Skipped r' = Skipped r /\ Children r' = Children r.

(** The result a finished run returned. *)
Definition resultOf (o : outcome (Result * option error)) : Result :=
  match o with
  | Done (r, _) _ => r
  | Panic _ => zeroResult OpSingle
  end.

Definition errorOf (o : outcome (Result * option error)) : option error :=
  match o with
  | Done (_, err) _ => err
  | Panic _ => None
  end.

Definition worldOf {A : Type} (o : outcome A) : World :=
  match o with
  | Done _ w => w
  | Panic _ => []
  end.

Definition true_ : Executable := leaf "true" [].
Definition false_ : Executable := leaf "false" [].
Definition echo (s : string) : Executable := leaf "echo" [s].
Definition cat : Executable := leaf "cat" [].
Definition sleep (s : string) : Executable := leaf "sleep" [s].
Definition missing : Executable := leaf "no-such-command" [].

(** Whether a run left a failure behind: its error is non-nil or its exit
    code is not 0. *)
Definition failed (r : Result) : Prop :=
  Error r <> None \/ ExitCode r <> 0%Z.

Definition succeeded (r : Result) : Prop :=
  Error r = None /\ ExitCode r = 0%Z.

(** The three-stage chain [false | echo x | echo y]. *)
Definition falseFirst : Executable := Pipe (Pipe false_ (echo "x")) (echo "y").

(** The context a background job runs under, and its trigger. *)
Definition bgCtx : Context := fst (context_WithCancel context_Background).
Definition bgCancel : CancelFunc := snd (context_WithCancel context_Background).

(** The placeholder [VisitBackground] returns. *)
Definition placeholder : Result := setExitCode (zeroResult OpBackground) 0%Z.

(** The placeholder after the drain has received [jr], the result of its
    one job. *)
Definition drainedPlaceholder (jr : Result) : Result :=
  setBackgroundErrors placeholder
    (match Error jr with Some e => [e] | None => [] end).

(** The job [VisitBackground] registers for [exec0] once the detached run
    has put [result] on the channel. *)
Definition jobOf (exec0 : Executable) (result : Result) : BackgroundJob :=
  {| exec := exec0;
     done := {| chan_cap := 1; chan_buf := [result] |};
     cancel := bgCancel |}.

(** [awaited x w]: the run that produced [w] received the completion of
    the job running [x] before it went on. *)
Definition awaited (x : Executable) (w : World) : Prop := In (EvAwait x) w.

(** Trees built from leaves with Pipe, And and Or only. *)
Fixpoint backgroundFree (e : Executable) : bool :=
  match e with
  | ExecutableProcess _ _ => true
  | Pipeline OpPipe l (Some r) _
  | Pipeline OpAnd l (Some r) _
  | Pipeline OpOr l (Some r) _ => backgroundFree l && backgroundFree r
  | Pipeline _ _ _ _ => false
  end.

(** And, Or and Background nodes (and a node with the tag Single, which no
    combinator builds): the operands [startProcess] runs through [Run]. *)
Definition ranByRun (e : Executable) : bool :=
  match e with
  | ExecutableProcess _ _ => false
  | Pipeline operation _ _ _ => negb (OperationType_eqb operation OpPipe)
  end.

Definition nilDereference : string :=
  "invalid memory address or nil pointer dereference".

(** The log only grows: [extends w w'] when [w'] is [w] with further
    events after it, and [growing m] when the computation [m] only ever
    appends. *)
Definition extends (w w' : World) : Prop := exists evs, w' = w ++ evs.

Definition growing {A : Type} (m : M A) : Prop :=
  forall w a w', m w = Done a w' -> extends w w'.

Section Drained.

Variable os : OS.

(** The result a job hands to the drain: what the first case of the
    [select] receives, when that case is the one taken. *)
Definition completion (c : Context) (i : nat) (job : BackgroundJob)
  : option Result :=
  match chan_recv (done job), ctx_Err c with
  | Some (bgResult, _), None => Some bgResult
  | Some (bgResult, _), Some _ =>
      if os_selectCtx os i then None else Some bgResult
  | None, _ => None
  end.

(** The errors of the jobs that completed, in job order. *)
Fixpoint collected (c : Context) (i : nat) (jobs : list BackgroundJob)
  : list error :=
  match jobs with
  | [] => []
  | job :: rest =>
      match completion c i job with
      | Some bgResult =>
          match Error bgResult with
          | Some e => e :: collected c (S i) rest
          | None => collected c (S i) rest
          end
      | None => collected c (S i) rest
      end
  end.

End Drained.

(** A leaf, a second leaf, and a Pipe over them built before the call. *)
Definition sample : list Store.Node :=
  [ Store.NProcess {| Command := "echo"; Args := ["x"%string] |} (5 * Second)%Z;
    Store.NProcess {| Command := "cat"; Args := [] |} (5 * Second)%Z;
    Store.NPipeline OpPipe 0 (Some 1) (5 * Second)%Z ].

(** ** Vocabulary of the further properties *)

(** The leaves of a tree, left to right. *)
Fixpoint leaves (e : Executable) : list Process :=
  match e with
  | ExecutableProcess p _ => [p]
  | Pipeline _ l r _ =>
      leaves l ++ match r with Some x => leaves x | None => [] end
  end.

(** The tag of the Result a node produces. *)
Definition tagOf (e : Executable) : OperationType :=
  match e with
  | ExecutableProcess _ _ => OpSingle
  | Pipeline operation _ _ _ => operation
  end.

(** The shapes of the Results the package builds: a Result without
    children (of a leaf, of a Background node, of a Pipe that did not get
    as far as running both sides), the skipped child, and a Pipe, And or Or
    Result over two children.  No shape has anything in [Stderr]; only a
    Background Result may carry background errors. *)
Inductive shaped : Result -> Prop :=
  | shaped_Single (r : Result) :
      Type_ r = OpSingle -> Children r = [] -> Stderr r = [] ->
      BackgroundErrors r = [] -> Skipped r = false -> shaped r
  | shaped_skipped : shaped skippedResult
  | shaped_Background (r : Result) :
      Type_ r = OpBackground -> Children r = [] -> Stderr r = [] ->
      Stdout r = [] -> ExitCode r = 0%Z -> Error r = None ->
      Skipped r = false -> shaped r
  | shaped_Pipe_unrun (r : Result) :
      Type_ r = OpPipe -> Children r = [] -> Stderr r = [] ->
      Stdout r = [] -> BackgroundErrors r = [] -> Skipped r = false ->
      Error r <> None -> shaped r
  | shaped_node (r l x : Result) :
      Type_ r = OpPipe \/ Type_ r = OpAnd \/ Type_ r = OpOr ->
      Children r = [Some l; Some x] -> shaped l -> shaped x ->
      Stderr r = [] -> BackgroundErrors r = [] -> Skipped r = false ->
      shaped r.

(** What [Run] and [startProcess] keep of the shapes: a Result handed back
    is shaped, and a start error always comes with a Result. *)
Definition Run_shaped (f : Context -> M (Result * option error)) : Prop :=
  forall c w r err w', f c w = Done (r, err) w' -> shaped r.

Definition start_shaped (g : ExecutionVisitor -> M started) : Prop :=
  forall v w run res err w',
    g v w = Done (run, res, err) w' ->
    (forall r, res = Some r -> shaped r) /\ (err <> None -> res <> None).

(** [spawnsIn ps m]: the computation [m] only appends to the log, and the
    processes it starts are among [ps], in the order of [ps], each position
    of [ps] used at most once. *)
Definition spawnsIn {A : Type} (ps : list Process) (m : M A) : Prop :=
  forall w a w',
    m w = Done a w' -> exists evs, w' = w ++ evs /\ sublist (spawned evs) ps.

(** [combined h e h' p]: one of the four combinators, called on the
    receiver [e] in the heap [h], returned the address [p] and left the
    heap [h']. *)
Definition combined (h : list Store.Node) (e : Store.ref)
    (h' : list Store.Node) (p : Store.ref) : Prop :=
  (exists next, Store.Pipe h e next = Some (h', p)) \/
  (exists next, Store.And h e next = Some (h', p)) \/
  (exists next, Store.Or h e next = Some (h', p)) \/
  Store.Background h e = Some (h', p).

(** Background jobs launched, and jobs done with: those whose completion
    was received and those that were cancelled. *)
Fixpoint launched (w : World) : nat :=
  match w with
  | [] => 0
  | EvLaunch _ :: w' => S (launched w')
  | _ :: w' => launched w'
  end.

Fixpoint settled (w : World) : nat :=
  match w with
  | [] => 0
  | EvAwait _ :: w' => S (settled w')
  | EvCancel _ :: w' => S (settled w')
  | _ :: w' => settled w'
  end.

(** An entry of [WaitForBackground] that found at most one job. *)
Definition oneJob (ev : Event) : Prop :=
  match ev with
  | EvDrain jobs => jobs <= 1
  | _ => True
  end.

(** [settles m]: the computation [m] only appends to the log, has a
    drain deal with every job it launches, and never enters a drain with
    two jobs. *)
Definition settles {A : Type} (m : M A) : Prop :=
  forall w a w',
    m w = Done a w' ->
    exists evs,
      w' = w ++ evs /\ launched evs = settled evs /\ Forall oneJob evs.

(** A tree with every shutdown timeout set to zero: two trees with the
    same [erase] differ in their timeouts only.  Events, jobs and visitors
    mention trees and timeouts, and are erased likewise. *)
Fixpoint erase (e : Executable) : Executable :=
  match e with
  | ExecutableProcess p _ => ExecutableProcess p 0%Z
  | Pipeline operation l r _ =>
      Pipeline operation (erase l)
        (match r with Some x => Some (erase x) | None => None end) 0%Z
  end.

Definition eraseEv (ev : Event) : Event :=
  match ev with
  | EvSpawn p => EvSpawn p
  | EvLaunch e => EvLaunch (erase e)
  | EvDrain jobs => EvDrain jobs
  | EvAwait e => EvAwait (erase e)
  | EvCancel e => EvCancel (erase e)
  end.

Definition eraseJob (job : BackgroundJob) : BackgroundJob :=
  {| exec := erase (exec job); done := done job; cancel := cancel job |}.

Definition eraseVisitor (v : ExecutionVisitor) : ExecutionVisitor :=
  {| ctx := ctx v; shutdownTimeout := 0%Z;
     backgroundJobs := map eraseJob (backgroundJobs v) |}.

Definition eraseOutcome {A B : Type} (f : A -> B) (o : outcome A)
  : outcome B :=
  match o with
  | Done a w => Done (f a) (map eraseEv w)
  | Panic msg => Panic msg
  end.

(** [sim f m m']: the computation [m'] does on the erased log what [m] does
    on the log, and returns the value of [m] under [f]. *)
Definition sim {A B : Type} (f : A -> B) (m : M A) (m' : M B) : Prop :=
  forall w, m' (map eraseEv w) = eraseOutcome f (m w).

(** A leaf with timeout [d], and the left-nested chain
    [p | q1 | ... | qn] the combinator [Pipe] builds from leaves. *)
Definition stage (d : Duration) (p : Process) : Executable :=
  ExecutableProcess p d.

Definition chainOf (d : Duration) (p : Process) (qs : list Process)
  : Executable :=
  fold_left (fun e q => Pipe e (stage d q)) qs (stage d p).

(** Trees built from leaves with And and Or only. *)
Fixpoint andOr (e : Executable) : bool :=
  match e with
  | ExecutableProcess _ _ => true
  | Pipeline OpAnd l (Some r) _
  | Pipeline OpOr l (Some r) _ => andOr l && andOr r
  | Pipeline _ _ _ _ => false
  end.

Section Shell.

Variable os : OS.

(** Whether a command can be started under context [c]: no pipe, lookup
    or spawn failure, and a context that is not done. *)
Definition leafStarts (c : Context) (p : Process) : bool :=
  match os_pipeErr os p, os_lookPathErr os p, ctx_Err c, os_startErr os p with
  | None, None, None, None => true
  | _, _, _, _ => false
  end.

(** What a process started on its own writes, and whether it exits with
    status 0: its standard input is never written to. *)
Definition leafOk (c : Context) (p : Process) : bool :=
  leafStarts c p &&
  match cmd_Wait (snd (os_behave os p [])) with
  | None => true
  | Some _ => false
  end.

Definition leafOut (c : Context) (p : Process) : list byte :=
  if leafStarts c p then fst (os_behave os p []) else [].

(** The shell's reading of [&&] and [||]: success, the commands that get
    started, and the output that is reported. *)
Fixpoint shellOk (c : Context) (e : Executable) : bool :=
  match e with
  | ExecutableProcess p _ => leafOk c p
  | Pipeline OpAnd l (Some r) _ => shellOk c l && shellOk c r
  | Pipeline OpOr l (Some r) _ => shellOk c l || shellOk c r
  | Pipeline _ _ _ _ => false
  end.

Fixpoint shellRan (c : Context) (e : Executable) : list Process :=
  match e with
  | ExecutableProcess p _ => if leafStarts c p then [p] else []
  | Pipeline OpAnd l (Some r) _ =>
      shellRan c l ++ (if shellOk c l then shellRan c r else [])
  | Pipeline OpOr l (Some r) _ =>
      shellRan c l ++ (if shellOk c l then [] else shellRan c r)
  | Pipeline _ _ _ _ => []
  end.

Fixpoint shellOut (c : Context) (e : Executable) : list byte :=
  match e with
  | ExecutableProcess p _ => leafOut c p
  | Pipeline OpAnd l (Some r) _ =>
      if shellOk c l then shellOut c r else shellOut c l
  | Pipeline OpOr l (Some r) _ =>
      if shellOk c l then shellOut c l else shellOut c r
  | Pipeline _ _ _ _ => []
  end.

(** What comes out of the last of the processes [ps] when each reads what
    the one before it wrote and the first reads [input]. *)
Definition flow (input : list byte) (ps : list Process) : list byte :=
  fold_left (fun inp q => fst (os_behave os q inp)) ps input.

End Shell.

(** ** Reasoning about the execution monad *)

Lemma bind_Done {A B : Type} (m : M A) (k : A -> M B) (w w' : World) (b : B) :
  bind m k w = Done b w' ->
  exists a w1, m w = Done a w1 /\ k a w1 = Done b w'.
Proof.
  unfold bind. destruct (m w) as [a w1|msg]; [|discriminate].
  intros H. exists a, w1. split; [reflexivity|exact H].
Qed.

Lemma bind_eq_Done {A B : Type} (m : M A) (k : A -> M B) (w w1 : World) (a : A) :
  m w = Done a w1 -> bind m k w = k a w1.
Proof. unfold bind. intros ->. reflexivity. Qed.

Lemma bind_eq_Panic {A B : Type} (m : M A) (k : A -> M B) (w : World) msg :
  m w = Panic msg -> bind m k w = Panic msg.
Proof. unfold bind. intros ->. reflexivity. Qed.

Lemma ret_Done {A : Type} (a b : A) (w w' : World) :
  ret a w = Done b w' -> a = b /\ w = w'.
Proof. unfold ret. intros H. inversion H. split; reflexivity. Qed.

Lemma emit_Done (ev : Event) (w w' : World) (u : unit) :
  emit ev w = Done u w' -> w' = w ++ [ev].
Proof. unfold emit. intros H. inversion H. reflexivity. Qed.

Lemma deref_Done {A : Type} (p : option A) (a : A) (w w' : World) :
  deref p w = Done a w' -> p = Some a /\ w = w'.
Proof.
  destruct p as [x|]; simpl; [|discriminate].
  intros H. apply ret_Done in H. destruct H as [-> ->]. split; reflexivity.
Qed.

(** One step of symbolic execution of a hypothesis [_ = Done _ _]. *)
Ltac exec_step :=
  match goal with
  | H : bind _ _ _ = Done _ _ |- _ =>
      apply bind_Done in H; destruct H as (? & ? & ? & H)
  | H : ret _ _ = Done _ _ |- _ =>
      apply ret_Done in H; destruct H as [? ?]; subst
  | H : emit _ _ = Done _ _ |- _ => apply emit_Done in H; subst
  | H : deref _ _ = Done _ _ |- _ =>
      apply deref_Done in H; destruct H as [? ?]; subst
  | H : panic _ _ = Done _ _ |- _ => discriminate H
  | H : nil_Run _ _ = Done _ _ |- _ => discriminate H
  | H : nil_startProcess _ _ = Done _ _ |- _ => discriminate H
  | H : (_, _) = (_, _) |- _ => inversion H; subst; clear H
  | H : Some _ = Some _ |- _ => inversion H; subst; clear H
  | H : (match ?x with _ => _ end) _ = Done _ _ |- _ => destruct x eqn:?
  | H : (if ?x then _ else _) _ = Done _ _ |- _ => destruct x eqn:?
  end.

Ltac exec := repeat (exec_step; simpl in *).

(** Induction on trees, through the optional right operand. *)
Fixpoint Executable_tree_ind (P : Executable -> Prop)
    (Hleaf : forall process timeout, P (ExecutableProcess process timeout))
    (Hnode : forall operation l r timeout,
        P l -> (forall x, r = Some x -> P x) ->
        P (Pipeline operation l r timeout))
    (e : Executable) {struct e} : P e :=
  match e with
  | ExecutableProcess process timeout => Hleaf process timeout
  | Pipeline operation l r timeout =>
      Hnode operation l r timeout
        (Executable_tree_ind P Hleaf Hnode l)
        (match r as r0 return forall x, r0 = Some x -> P x with
         | Some y => fun x (E : Some y = Some x) =>
             match E in _ = s return
                   match s with Some z => P z | None => True end with
             | eq_refl => Executable_tree_ind P Hleaf Hnode y
             end
         | None => fun x (E : None = Some x) =>
             match E in _ = s return
                   match s with Some _ => P x | None => True end with
             | eq_refl => I
             end
         end)
  end.

(** ** Exit codes and errors *)

Section Facts.

Variable os : OS.

Lemma cmd_Wait_getExitCode (t : Termination) :
  getExitCode (cmd_Wait t) = 0%Z <-> cmd_Wait t = None.
Proof.
  destruct t as [st|msg]; simpl.
  - destruct st as [status|sig]; simpl.
    + destruct (status =? 0)%Z eqn:E; simpl.
      * split; reflexivity.
      * apply Z.eqb_neq in E. split; [intros; contradiction|discriminate].
    + split; [discriminate|discriminate].
  - split; discriminate.
Qed.

Lemma Wait_getExitCode (r : ProcessRunner) :
  getExitCode (Wait os r) = 0%Z <-> Wait os r = None.
Proof. apply cmd_Wait_getExitCode. Qed.

(** [Exec] either reports an error and leaves the world alone, or starts
    exactly one process. *)
Lemma Exec_Done (p : Process) (c : Context) (w w' : World) r :
  Exec os p c w = Done r w' ->
  (exists err, r = inr err /\ w' = w) \/
  (r = inl {| cmd := p; stdin := [] |} /\ ctx_Err c = None /\
   w' = w ++ [EvSpawn p]).
Proof.
  unfold Exec, cmd_Start. intros H.
  destruct (os_pipeErr os p); [exec; left; eauto|].
  destruct (os_lookPathErr os p); [exec; left; eauto|].
  destruct (ctx_Err c); [exec; left; eauto|].
  destruct (os_startErr os p); [exec; left; eauto|].
  exec. right. auto.
Qed.

Lemma Exec_total (p : Process) (c : Context) (w : World) :
  exists r w', Exec os p c w = Done r w'.
Proof.
  unfold Exec, cmd_Start, bind, ret, emit.
  destruct (os_pipeErr os p); [eauto|].
  destruct (os_lookPathErr os p); [eauto|].
  destruct (ctx_Err c); [eauto|].
  destruct (os_startErr os p); eauto.
Qed.

(** With a context that is done, [Exec] fails and starts nothing. *)
Lemma Exec_ctx_done (p : Process) (c : Context) (ce : ctx_error) (w : World) :
  ctx_Err c = Some ce ->
  exists err, Exec os p c w = Done (inr err) w.
Proof.
  intros Hc. unfold Exec, cmd_Start, bind, ret.
  destruct (os_pipeErr os p); [eauto|].
  destruct (os_lookPathErr os p); [eauto|].
  rewrite Hc. eauto.
Qed.

End Facts.

(** ** The exit-code invariant *)

Section Invariant.

Variable os : OS.

Lemma good_consistent c r err : good c r err -> consistent c r.
Proof.
  intros [He Hn Hz Ht].
  destruct (Error r) as [e|] eqn:E.
  - destruct (Z.eq_dec (ExitCode r) 0%Z) as [Z0|Z0].
    + right. left. apply Hz; [exact Z0|discriminate].
    + left. unfold exit_iff_nil. rewrite E.
      split; [intros; contradiction|discriminate].
  - left. unfold exit_iff_nil. rewrite E.
    split; [reflexivity|intros _; apply Hn; reflexivity].
Qed.

Lemma tree_consistent_intro c r :
  consistent c r ->
  (forall x, In (Some x) (Children r) -> tree_consistent c x) ->
  tree_consistent c r.
Proof.
  intros Hr Hc d Hd. inversion Hd; subst.
  - exact Hr.
  - eapply Hc; eassumption.
Qed.

Lemma good_tree_consistent c r err : good c r err -> tree_consistent c r.
Proof.
  intros G. apply tree_consistent_intro.
  - eapply good_consistent; exact G.
  - apply (good_tree _ _ _ G).
Qed.

Lemma tree_consistent_leaf c r :
  Children r = [] -> consistent c r -> tree_consistent c r.
Proof.
  intros Hc Hr. apply tree_consistent_intro; [exact Hr|].
  intros x Hx. rewrite Hc in Hx. destruct Hx.
Qed.

Lemma VisitProcess_good v process w r err w' :
  VisitProcess os v process w = Done (r, err) w' -> good (ctx v) r err.
Proof.
  unfold VisitProcess. intros H. exec.
  - (* started *)
    pose proof (Wait_getExitCode os p) as HW. unfold getExitCode in HW.
    constructor; simpl.
    + reflexivity.
    + intros E. apply HW. exact E.
    + intros Z0 E. apply HW in Z0. contradiction.
    + intros kid [].
  - (* failed to start *)
    constructor; simpl.
    + split; discriminate.
    + discriminate.
    + discriminate.
    + intros kid [].
Qed.

Lemma same_but_BackgroundErrors_refl r : same_but_BackgroundErrors r r.
Proof. repeat split. Qed.

Lemma same_but_BackgroundErrors_trans r1 r2 r3 :
  same_but_BackgroundErrors r1 r2 -> same_but_BackgroundErrors r2 r3 ->
  same_but_BackgroundErrors r1 r3.
Proof.
  unfold same_but_BackgroundErrors.
  intros (?&?&?&?&?&?&?) (?&?&?&?&?&?&?). repeat split; congruence.
Qed.

Lemma drainJobs_frame v jobs : forall i result w result' w',
  drainJobs os v i jobs result w = Done result' w' ->
  same_but_BackgroundErrors result result'.
Proof.
  induction jobs as [|job rest IH]; intros i result w result' w' H; simpl in H.
  - exec. apply same_but_BackgroundErrors_refl.
  - apply bind_Done in H. destruct H as (r1 & w1 & H1 & H2).
    apply IH in H2.
    eapply same_but_BackgroundErrors_trans; [|exact H2].
    clear H2 IH.
    destruct (chan_recv (done job)) as [[bg ch]|];
      destruct (ctx_Err (ctx v)); try destruct (os_selectCtx os i);
      exec; try apply same_but_BackgroundErrors_refl;
      repeat split.
Qed.

Lemma WaitForBackground_frame v result w result' w' :
  WaitForBackground os v result w = Done result' w' ->
  same_but_BackgroundErrors result result'.
Proof.
  unfold WaitForBackground. intros H. exec.
  - apply same_but_BackgroundErrors_refl.
  - eapply drainJobs_frame; eassumption.
Qed.

Lemma good_frame c r r' err :
  same_but_BackgroundErrors r r' -> good c r err -> good c r' err.
Proof.
  intros (_&_&_&Hx&He&_&Hc) [G1 G2 G3 G4].
  constructor; unfold unresolved in *; rewrite ?Hx, ?He, ?Hc; assumption.
Qed.

Lemma VisitAnd_good v left_Run right_Run :
  Run_good left_Run -> Run_good right_Run ->
  forall w r err w',
    VisitAnd v left_Run right_Run w = Done (r, err) w' -> good (ctx v) r err.
Proof.
  intros HL HR w r err w' H. unfold VisitAnd in H.
  apply bind_Done in H. destruct H as ([lr lerr] & w1 & H1 & H).
  apply HL in H1.
  destruct (notNil lerr || negb (ExitCode lr =? 0)%Z) eqn:C.
  - exec. destruct H1 as [G1 G2 G3 G4].
    constructor; simpl; try assumption.
    + reflexivity.
    + intros kid [Hk|[Hk|[]]]; inversion Hk; subst.
      * apply tree_consistent_intro; [|exact G4].
        eapply good_consistent. constructor; eassumption.
      * apply tree_consistent_leaf; [reflexivity|].
        left. split; reflexivity.
  - apply bind_Done in H. destruct H as ([rr rerr] & w2 & H2 & H).
    apply HR in H2. exec.
    pose proof (good_tree_consistent _ _ _ H1) as TL.
    pose proof (good_tree_consistent _ _ _ H2) as TR.
    destruct H2 as [G1 G2 G3 G4].
    constructor; simpl; try assumption.
    intros kid [Hk|[Hk|[]]]; inversion Hk; subst; assumption.
Qed.

Lemma VisitOr_good v left_Run right_Run :
  Run_good left_Run -> Run_good right_Run ->
  forall w r err w',
    VisitOr v left_Run right_Run w = Done (r, err) w' -> good (ctx v) r err.
Proof.
  intros HL HR w r err w' H. unfold VisitOr in H.
  apply bind_Done in H. destruct H as ([lr lerr] & w1 & H1 & H).
  apply HL in H1.
  pose proof (good_tree_consistent _ _ _ H1) as TL.
  destruct (negb (notNil lerr) && (ExitCode lr =? 0)%Z) eqn:C.
  - exec. apply andb_prop in C. destruct C as [_ C]. apply Z.eqb_eq in C.
    constructor; simpl.
    + split; reflexivity.
    + intros _. exact C.
    + intros _ E. contradiction.
    + intros kid [Hk|[Hk|[]]]; inversion Hk; subst.
      * exact TL.
      * apply tree_consistent_leaf; [reflexivity|].
        left. split; reflexivity.
  - apply bind_Done in H. destruct H as ([rr rerr] & w2 & H2 & H).
    apply HR in H2.
    pose proof (good_tree_consistent _ _ _ H2) as TR.
    destruct (negb (notNil rerr) && (ExitCode rr =? 0)%Z) eqn:C2; exec.
    + apply andb_prop in C2. destruct C2 as [_ C2]. apply Z.eqb_eq in C2.
      constructor; simpl.
      * split; reflexivity.
      * intros _. exact C2.
      * intros _ E. contradiction.
      * intros kid [Hk|[Hk|[]]]; inversion Hk; subst; assumption.
    + destruct H2 as [G1 G2 G3 G4].
      constructor; simpl; try assumption.
      intros kid [Hk|[Hk|[]]]; inversion Hk; subst; assumption.
Qed.

Lemma notStarted_tree c : tree_consistent c notStarted.
Proof.
  apply tree_consistent_leaf; [reflexivity|]. right. right. reflexivity.
Qed.

(** The two results [executePipe] builds once both sides have run. *)
Lemma waited_consistent c ty out (err : option error) :
  (getExitCode err = 0%Z <-> err = None) ->
  tree_consistent c
    (setError (setExitCode (setStdout (zeroResult ty) out) (getExitCode err))
       err).
Proof.
  intros HW. apply tree_consistent_leaf; [reflexivity|]. left. exact HW.
Qed.

Lemma VisitPipe_good v left_startProcess right_startProcess :
  start_good left_startProcess -> start_good right_startProcess ->
  forall w r err w',
    VisitPipe os v left_startProcess right_startProcess w = Done (r, err) w' ->
    good (ctx v) r err.
Proof.
  intros HL HR w r err w' H. unfold VisitPipe in H.
  destruct (ctx_Err (ctx v)) as [ce|] eqn:Hctx.
  { (* the context is already done *)
    exec. constructor; simpl.
    - split; discriminate.
    - discriminate.
    - intros _ _. split; [reflexivity|]. exists ce. split; [exact Hctx|reflexivity].
    - intros kid []. }
  assert (Hlive : forall x, unresolved (ctx v) x -> False).
  { intros x (_ & ce & Hce & _). rewrite Hctx in Hce. discriminate. }
  apply bind_Done in H. destruct H as ([[lres rres] perr] & w1 & HE & H).
  unfold executePipe in HE.
  apply bind_Done in HE. destruct HE as ([[lrun lres0] lerr] & w2 & HLs & HE).
  apply HL in HLs. simpl in HLs.
  destruct lerr as [le|].
  { (* the left operand did not start *)
    destruct HLs as (l & -> & El & Zl & Tl). exec_step. exec_step.
    simpl in H. exec. 2:{ contradiction. }
    constructor; simpl.
    - split; discriminate.
    - discriminate.
    - intros Z0 _. exfalso. eapply Hlive. apply Zl. exact Z0.
    - intros kid [Hk|[Hk|[]]]; inversion Hk; subst;
        [exact Tl|apply notStarted_tree]. }
  apply bind_Done in HE. destruct HE as ([[rrun rres0] rerr] & w3 & HRs & HE).
  apply HR in HRs. simpl in HRs.
  destruct rerr as [re|].
  { (* the right operand did not start *)
    destruct HRs as (rr & -> & Er & Zr & Tr). exec_step. exec_step.
    simpl in H. apply bind_Done in H. destruct H as (l & w4 & Hd & H).
    apply deref_Done in Hd. destruct Hd as [-> ->].
    destruct (HLs l eq_refl) as (El & Zl & Tl).
    rewrite El in H. exec.
    constructor; simpl.
    - split; discriminate.
    - discriminate.
    - intros Z0 _. exfalso. eapply Hlive. apply Zr. exact Z0.
    - intros kid [Hk|[Hk|[]]]; inversion Hk; subst; assumption. }
  (* both operands started *)
  apply bind_Done in HE. destruct HE as (rightR & w4 & Hd1 & HE).
  apply deref_Done in Hd1. destruct Hd1 as [-> ->].
  apply bind_Done in HE. destruct HE as (leftR & w5 & Hd2 & HE).
  apply deref_Done in Hd2. destruct Hd2 as [-> ->].
  pose proof (Wait_getExitCode os leftR) as WL.
  pose proof (Wait_getExitCode os (Copy os rightR leftR)) as WR.
  assert (TL : tree_consistent (ctx v)
                 (setError (setExitCode (zeroResult OpSingle)
                              (getExitCode (Wait os leftR))) (Wait os leftR))).
  { apply tree_consistent_leaf; [reflexivity|]. left. exact WL. }
  pose proof (waited_consistent (ctx v) OpSingle
                (ReadAll os (Copy os rightR leftR)) _ WR) as TR.
  destruct (Wait os leftR) as [le|] eqn:EL.
  { exec. constructor; simpl.
    - split; discriminate.
    - discriminate.
    - intros Z0 _. apply WL in Z0. discriminate.
    - intros kid [Hk|[Hk|[]]]; inversion Hk; subst; assumption. }
  destruct (Wait os (Copy os rightR leftR)) as [re|] eqn:ER.
  { exec. constructor; simpl.
    - split; discriminate.
    - discriminate.
    - intros Z0 _. apply WR in Z0. discriminate.
    - intros kid [Hk|[Hk|[]]]; inversion Hk; subst; assumption. }
  exec. constructor; simpl.
  - split; reflexivity.
  - reflexivity.
  - intros _ E. contradiction.
  - intros kid [Hk|[Hk|[]]]; inversion Hk; subst; assumption.
Qed.

Lemma VisitBackground_Done v exec0 exec_Run w r err v' w' :
  VisitBackground v exec0 exec_Run w = Done (r, err, v') w' ->
  r = setExitCode (zeroResult OpBackground) 0%Z /\ err = None /\
  ctx v' = ctx v /\ shutdownTimeout v' = shutdownTimeout v.
Proof.
  unfold VisitBackground. simpl. intros H. exec; repeat split.
Qed.

Lemma visit_good visitor operation l left_Run right_Run
      left_startProcess right_startProcess :
  Run_good left_Run -> Run_good right_Run ->
  start_good left_startProcess -> start_good right_startProcess ->
  forall w r err visitor' w',
    visit os visitor operation l left_Run right_Run
          left_startProcess right_startProcess w = Done (r, err, visitor') w' ->
    good (ctx visitor) r err /\ ctx visitor' = ctx visitor.
Proof.
  intros HL HR SL SR w r err visitor' w' H.
  destruct operation; simpl in H.
  - discriminate H.
  - apply bind_Done in H. destruct H as ([r0 e0] & w1 & H1 & H). exec.
    split; [|reflexivity]. exact (VisitPipe_good _ _ _ SL SR _ _ _ _ H1).
  - apply bind_Done in H. destruct H as ([r0 e0] & w1 & H1 & H). exec.
    split; [|reflexivity]. exact (VisitAnd_good _ _ _ HL HR _ _ _ _ H1).
  - apply bind_Done in H. destruct H as ([r0 e0] & w1 & H1 & H). exec.
    split; [|reflexivity]. exact (VisitOr_good _ _ _ HL HR _ _ _ _ H1).
  - apply VisitBackground_Done in H. destruct H as (-> & -> & Hc & _).
    split; [|exact Hc].
    constructor; simpl.
    + split; reflexivity.
    + reflexivity.
    + intros _ E. contradiction.
    + intros kid [].
Qed.

Lemma Pipeline_Run_good operation l left_Run right_Run
      left_startProcess right_startProcess timeout :
  Run_good left_Run -> Run_good right_Run ->
  start_good left_startProcess -> start_good right_startProcess ->
  Run_good (Pipeline_Run os operation l left_Run right_Run
              left_startProcess right_startProcess timeout).
Proof.
  intros HL HR SL SR c w r err w' H. unfold Pipeline_Run in H.
  apply bind_Done in H. destruct H as ([[r0 e0] v0] & w1 & H1 & H).
  eapply visit_good in H1; try eassumption. destruct H1 as [G _].
  simpl in G. destruct e0 as [e|].
  - exec. exact G.
  - apply bind_Done in H. destruct H as (r1 & w2 & HW & H). exec.
    apply WaitForBackground_frame in HW.
    eapply good_frame; eassumption.
Qed.

Lemma startNestedPipe_good left_startProcess right_startProcess :
  start_good (fun v => startNestedPipe os v left_startProcess right_startProcess).
Proof.
  intros v w s w' H. unfold startNestedPipe in H.
  apply bind_Done in H. destruct H as ([[lrun lres] lerr] & w1 & _ & H).
  destruct lerr as [le|].
  { exec. simpl. eexists. split; [reflexivity|]. simpl.
    split; [discriminate|]. split; [discriminate|].
    apply tree_consistent_leaf; [reflexivity|]. left. split; discriminate. }
  apply bind_Done in H. destruct H as ([[rrun rres] rerr] & w2 & _ & H).
  destruct rerr as [re|].
  { exec. simpl. eexists. split; [reflexivity|]. simpl.
    split; [discriminate|]. split; [discriminate|].
    apply tree_consistent_leaf; [reflexivity|]. left. split; discriminate. }
  exec. simpl. intros r0 E. discriminate E.
Qed.

Lemma Run_good_started c r err :
  good c r err -> good_started c (None, Some r, err).
Proof.
  intros G. pose proof (good_tree_consistent _ _ _ G) as T.
  destruct G as [G1 G2 G3 G4]. destruct err as [e|]; simpl.
  - exists r. split; [reflexivity|].
    assert (E : Error r <> None).
    { intros E. apply G1 in E. discriminate. }
    split; [exact E|]. split; [|exact T].
    intros Z0. apply G3; assumption.
  - intros r0 Hr. inversion Hr; subst.
    assert (E : Error r0 = None) by (apply G1; reflexivity).
    split; [exact E|]. split; [apply G2; exact E|exact T].
Qed.

(** Every [Run] and every [startProcess] keeps the invariant. *)
Lemma Run_startProcess_good (e : Executable) :
  Run_good (Run os e) /\ start_good (fun v => startProcess os v e).
Proof.
  induction e as [process timeout|operation l r timeout [IHl IHsl] IHr]
    using Executable_tree_ind.
  - split.
    + intros c w r err w' H. simpl in H.
      apply VisitProcess_good in H. exact H.
    + intros v w s w' H. simpl in H.
      apply bind_Done in H. destruct H as (st & w1 & _ & H).
      destruct st as [runner|err]; exec; simpl.
      * intros r0 E. discriminate E.
      * eexists. split; [reflexivity|]. simpl.
        split; [discriminate|]. split; [discriminate|].
        apply tree_consistent_leaf; [reflexivity|]. left. split; discriminate.
  - assert (HR : Run_good (match r with Some x => Run os x | None => nil_Run end)).
    { destruct r as [x|]; [apply (IHr x eq_refl)|].
      intros c w r0 err w' H. discriminate H. }
    assert (SR : start_good (match r with
                            | Some x => fun v => startProcess os v x
                            | None => nil_startProcess
                            end)).
    { destruct r as [x|]; [apply (IHr x eq_refl)|].
      intros v w s w' H. discriminate H. }
    assert (G : Run_good (Run os (Pipeline operation l r timeout))).
    { simpl. apply Pipeline_Run_good; assumption. }
    split; [exact G|].
    intros v w s w' H. simpl in H.
    destruct (OperationType_eqb operation OpPipe).
    + eapply (startNestedPipe_good _ _ v). exact H.
    + apply bind_Done in H. destruct H as ([r0 e0] & w1 & H1 & H). exec.
      apply Run_good_started.
      eapply (Pipeline_Run_good operation l _ _ _ _ timeout);
        [exact IHl|exact HR|exact IHsl|exact SR|exact H1].
Qed.

Lemma Run_is_good (e : Executable) c w r err w' :
  Run os e c w = Done (r, err) w' -> good c r err.
Proof. apply (proj1 (Run_startProcess_good e)). Qed.

End Invariant.

(** ** The log only grows *)

Section Growing.

Variable os : OS.

Lemma extends_refl (w : World) : extends w w.
Proof. exists []. symmetry. apply app_nil_r. Qed.

Lemma extends_trans (w1 w2 w3 : World) :
  extends w1 w2 -> extends w2 w3 -> extends w1 w3.
Proof.
  intros [a ->] [b ->]. exists (a ++ b). symmetry. apply app_assoc.
Qed.

Lemma growing_ret {A : Type} (a : A) : growing (ret a).
Proof. intros w b w' H. apply ret_Done in H. destruct H as [_ <-]. apply extends_refl. Qed.

Lemma growing_panic {A : Type} (msg : string) : growing (@panic A msg).
Proof. intros w a w' H. discriminate H. Qed.

Lemma growing_emit (ev : Event) : growing (emit ev).
Proof. intros w a w' H. apply emit_Done in H. subst w'. exists [ev]. reflexivity. Qed.

Lemma growing_deref {A : Type} (p : option A) : growing (deref p).
Proof. destruct p; [apply growing_ret|apply growing_panic]. Qed.

Lemma growing_bind {A B : Type} (m : M A) (k : A -> M B) :
  growing m -> (forall a, growing (k a)) -> growing (bind m k).
Proof.
  intros Hm Hk w b w' H. apply bind_Done in H. destruct H as (a & w1 & H1 & H2).
  eapply extends_trans; [eapply Hm|eapply Hk]; eassumption.
Qed.

Lemma growing_nil_Run (c : Context) : growing (nil_Run c).
Proof. apply growing_panic. Qed.

Lemma growing_nil_startProcess (v : ExecutionVisitor) :
  growing (nil_startProcess v).
Proof. apply growing_panic. Qed.

Lemma growing_Exec (p : Process) (c : Context) : growing (Exec os p c).
Proof.
  intros w r w' H. apply Exec_Done in H.
  destruct H as [(err & _ & ->)|(_ & _ & ->)].
  - apply extends_refl.
  - eexists. reflexivity.
Qed.

Create HintDb growing.
#[local] Hint Resolve growing_ret growing_panic growing_emit growing_deref
  growing_nil_Run growing_nil_startProcess growing_Exec : growing.

(** Break a computation into its binds and its case distinctions. *)
Ltac growing :=
  repeat first
    [ progress auto with growing
    | apply growing_bind; [|intros ?]
    | match goal with
      | |- growing (match ?x with _ => _ end) => destruct x
      | |- growing (if ?x then _ else _) => destruct x
      | |- growing (let (_, _) := ?x in _) => destruct x
      end ].

Lemma growing_VisitProcess v process : growing (VisitProcess os v process).
Proof. unfold VisitProcess. growing. Qed.

Lemma growing_executePipe v ls rs :
  (forall v, growing (ls v)) -> (forall v, growing (rs v)) ->
  growing (executePipe os v ls rs).
Proof. intros HL HR. unfold executePipe. growing. Qed.

Lemma growing_startNestedPipe v ls rs :
  (forall v, growing (ls v)) -> (forall v, growing (rs v)) ->
  growing (startNestedPipe os v ls rs).
Proof. intros HL HR. unfold startNestedPipe. growing. Qed.

Lemma growing_VisitPipe v ls rs :
  (forall v, growing (ls v)) -> (forall v, growing (rs v)) ->
  growing (VisitPipe os v ls rs).
Proof.
  intros HL HR. unfold VisitPipe.
  pose proof (growing_executePipe v ls rs HL HR). growing.
Qed.

Lemma growing_VisitAnd v lRun rRun :
  (forall c, growing (lRun c)) -> (forall c, growing (rRun c)) ->
  growing (VisitAnd v lRun rRun).
Proof. intros HL HR. unfold VisitAnd. growing. Qed.

Lemma growing_VisitOr v lRun rRun :
  (forall c, growing (lRun c)) -> (forall c, growing (rRun c)) ->
  growing (VisitOr v lRun rRun).
Proof. intros HL HR. unfold VisitOr. growing. Qed.

Lemma growing_VisitBackground v exec0 exec_Run :
  (forall c, growing (exec_Run c)) ->
  growing (VisitBackground v exec0 exec_Run).
Proof. intros HR. unfold VisitBackground. simpl. growing. Qed.

Lemma growing_drainJobs v jobs : forall i result,
  growing (drainJobs os v i jobs result).
Proof.
  induction jobs as [|job rest IH]; intros i result; simpl; growing.
Qed.

Lemma growing_WaitForBackground v result :
  growing (WaitForBackground os v result).
Proof.
  unfold WaitForBackground. pose proof (growing_drainJobs v). growing.
Qed.

Lemma growing_Pipeline_Run operation l lRun rRun ls rs timeout c :
  (forall c, growing (lRun c)) -> (forall c, growing (rRun c)) ->
  (forall v, growing (ls v)) -> (forall v, growing (rs v)) ->
  growing (Pipeline_Run os operation l lRun rRun ls rs timeout c).
Proof.
  intros HL HR SL SR. unfold Pipeline_Run, visit.
  pose proof (fun v => growing_VisitPipe v ls rs SL SR).
  pose proof (fun v => growing_VisitAnd v lRun rRun HL HR).
  pose proof (fun v => growing_VisitOr v lRun rRun HL HR).
  pose proof (fun v => growing_VisitBackground v l lRun HL).
  pose proof growing_WaitForBackground.
  growing.
Qed.

Lemma growing_Run_startProcess (e : Executable) :
  (forall c, growing (Run os e c)) /\
  (forall v, growing (startProcess os v e)).
Proof.
  induction e as [process timeout|operation l r timeout [IHl IHsl] IHr]
    using Executable_tree_ind.
  - split.
    + intros c. simpl. apply growing_VisitProcess.
    + intros v. simpl. growing.
  - assert (HR : forall c, growing
                   (match r with Some x => Run os x | None => nil_Run end c)).
    { destruct r as [x|]; [apply (IHr x eq_refl)|apply growing_nil_Run]. }
    assert (SR : forall v, growing
                   (match r with
                    | Some x => fun v => startProcess os v x
                    | None => nil_startProcess
                    end v)).
    { destruct r as [x|]; [apply (IHr x eq_refl)|apply growing_nil_startProcess]. }
    split.
    + intros c. simpl. apply growing_Pipeline_Run; assumption.
    + intros v. simpl. destruct (OperationType_eqb operation OpPipe).
      * apply growing_startNestedPipe; assumption.
      * apply growing_bind.
        -- apply growing_Pipeline_Run; assumption.
        -- intros [r0 e0]. apply growing_ret.
Qed.

(** Every [Run] only adds to the log. *)
Lemma Run_extends (e : Executable) (c : Context) (w w' : World) a :
  Run os e c w = Done a w' -> extends w w'.
Proof. apply (proj1 (growing_Run_startProcess e)). Qed.

End Growing.

Section Claims.

Variable os : OS.

(** *** Exit codes and errors in result trees *)

(** C1, as the spec states it, fails: a Pipe run under a context that is
    already done returns a Result whose exit code is 0 although its error is
    the context's error. *)
Lemma Pipe_cancelled_exit_zero_with_error :
  Run sh (Pipe (echo "x") cat) cancelled [] =
    Done (setError (zeroResult OpPipe) (Some (CtxError Canceled)),
          Some (CtxError Canceled)) []
  /\ ExitCode (setError (zeroResult OpPipe) (Some (CtxError Canceled))) = 0%Z
  /\ ~ exit_iff_nil (setError (zeroResult OpPipe) (Some (CtxError Canceled))).
Proof.
  split; [reflexivity|]. split; [reflexivity|].
  unfold exit_iff_nil. simpl. intros [H _]. specialize (H eq_refl). discriminate H.
Qed.

(** Whatever the context, the results that escape the equivalence are the
    unresolved ones (exit code 0 with the error of a context that is done)
    and the children made up for operands that were never started. *)
Lemma Run_tree_consistent (e : Executable) (c : Context) (w w' : World)
    (r : Result) (err : option error) :
  Run os e c w = Done (r, err) w' ->
  forall d, subresult d r ->
            exit_iff_nil d \/ unresolved c d \/ d = notStarted.
Proof.
  intros H. apply Run_is_good in H.
  intros d Hd. apply (good_tree_consistent _ _ _ H d Hd).
Qed.

(** C1 (amended): for every Run under a context that is not done, the
    Result returned has exit code 0 exactly when its error is nil, the error
    returned beside it is nil exactly when the Result's error is, and every
    Result below it in the tree has exit code 0 exactly when its error is
    nil, except the child made up for the right operand of a Pipe whose left
    operand failed to start (exit code -1, nil error). *)
Theorem Run_exit_code_invariant (e : Executable) (c : Context) (w w' : World)
    (r : Result) (err : option error) :
  ctx_Err c = None ->
  Run os e c w = Done (r, err) w' ->
  exit_iff_nil r /\
  (err = None <-> Error r = None) /\
  (forall d, subresult d r -> exit_iff_nil d \/ d = notStarted).
Proof.
  intros Hc H.
  assert (Hlive : forall d, ~ unresolved c d).
  { intros d (_ & ce & Hce & _). rewrite Hc in Hce. discriminate. }
  pose proof (Run_tree_consistent e c w w' r err H) as HT.
  apply Run_is_good in H.
  split; [|split].
  - destruct (good_consistent _ _ _ H) as [K|[K|K]].
    + exact K.
    + destruct (Hlive r K).
    + subst r. destruct H as [G1 G2 G3 G4]. simpl in *.
      specialize (G2 eq_refl). discriminate G2.
  - apply (good_err _ _ _ H).
  - intros d Hd. destruct (HT d Hd) as [K|[K|K]].
    + left. exact K.
    + destruct (Hlive d K).
    + right. exact K.
Qed.

(** *** And, Or *)

(** [Run] of an And node, once the left operand has run. *)
Lemma Run_And_unfold (l r : Executable) (c : Context) (w w1 : World)
    (lr : Result) (lerr : option error) :
  Run os l c w = Done (lr, lerr) w1 ->
  Run os (And l r) c w =
  Pipeline_Run os OpAnd l (fun _ _ => Done (lr, lerr) w1) (Run os r)
    (fun v => startProcess os v l) (fun v => startProcess os v r)
    (shutdownTimeoutOf l) c w.
Proof.
  intros H. unfold And. simpl.
  unfold Pipeline_Run, visit, VisitAnd, bind. simpl. rewrite H. reflexivity.
Qed.

Lemma Run_Or_unfold (l r : Executable) (c : Context) (w w1 : World)
    (lr : Result) (lerr : option error) :
  Run os l c w = Done (lr, lerr) w1 ->
  Run os (Or l r) c w =
  Pipeline_Run os OpOr l (fun _ _ => Done (lr, lerr) w1) (Run os r)
    (fun v => startProcess os v l) (fun v => startProcess os v r)
    (shutdownTimeoutOf l) c w.
Proof.
  intros H. unfold Or. simpl.
  unfold Pipeline_Run, visit, VisitOr, bind. simpl. rewrite H. reflexivity.
Qed.

Lemma failed_or_succeeded (r : Result) : {failed r} + {succeeded r}.
Proof.
  unfold failed, succeeded.
  destruct (Error r); [left; left; discriminate|].
  destruct (Z.eq_dec (ExitCode r) 0%Z); [right; auto|left; right; assumption].
Qed.

(** C3: And(left, right).  If left failed, right is never started (the
    world is the one left's run produced), a skipped child with exit code
    0, empty output and nil error is appended, and the overall Result has
    left's error, exit code and output.  Otherwise right runs, the overall
    Result mirrors right, and Children = [left, right]. *)
Theorem And_short_circuit (l r : Executable) (c : Context) (w w1 : World)
    (lr : Result) (lerr : option error) :
  Run os l c w = Done (lr, lerr) w1 ->
  (failed lr ->
   exists res,
     Run os (And l r) c w = Done (res, Error lr) w1 /\
     Type_ res = OpAnd /\
     Children res = [Some lr; Some skippedResult] /\
     Skipped skippedResult = true /\ ExitCode skippedResult = 0%Z /\
     Stdout skippedResult = [] /\ Stderr skippedResult = [] /\
     Error skippedResult = None /\
     Error res = Error lr /\ ExitCode res = ExitCode lr /\
     Stdout res = Stdout lr /\ Stderr res = Stderr lr) /\
  (succeeded lr ->
   forall rr rerr w2,
     Run os r c w1 = Done (rr, rerr) w2 ->
     exists res,
       Run os (And l r) c w =
         Done (res, rerr)
              (match rerr with None => w2 ++ [EvDrain 0] | Some _ => w2 end) /\
       Type_ res = OpAnd /\
       Children res = [Some lr; Some rr] /\
       Error res = Error rr /\ ExitCode res = ExitCode rr /\
       Stdout res = Stdout rr /\ Stderr res = Stderr rr).
Proof.
  intros H. pose proof (Run_is_good os _ _ _ _ _ _ H) as [G1 G2 G3 _].
  rewrite (Run_And_unfold l r c w w1 lr lerr H).
  unfold Pipeline_Run, visit, VisitAnd, WaitForBackground, bind, ret, emit.
  simpl. split.
  - intros F.
    assert (E : Error lr <> None).
    { destruct F as [F|F]; [exact F|]. intros E. apply F, G2, E. }
    assert (E' : lerr <> None) by (intros K; apply E, G1, K).
    destruct lerr as [le|]; [|contradiction]. simpl.
    destruct (Error lr) as [e|] eqn:EL; [|contradiction].
    eexists. split; [reflexivity|]. simpl.
    repeat split; reflexivity.
  - intros [E Z0] rr rerr w2 HR.
    assert (E' : lerr = None) by (apply G1, E). subst lerr.
    rewrite Z0. simpl. rewrite HR.
    destruct rerr as [re|]; eexists; (split; [reflexivity|]);
      simpl; repeat split; reflexivity.
Qed.

(** C4: Or(left, right).  If left succeeded, right is skipped and the
    overall Result mirrors left's success.  Otherwise right runs; the
    overall output and exit code are right's, and the overall error is nil
    exactly when right succeeded, right's error otherwise; left's failure
    stays on Children[0] only. *)
Theorem Or_recovery (l r : Executable) (c : Context) (w w1 : World)
    (lr : Result) (lerr : option error) :
  Run os l c w = Done (lr, lerr) w1 ->
  (succeeded lr ->
   exists res,
     Run os (Or l r) c w = Done (res, None) (w1 ++ [EvDrain 0]) /\
     Type_ res = OpOr /\
     Children res = [Some lr; Some skippedResult] /\
     Error res = None /\ ExitCode res = 0%Z /\
     Stdout res = Stdout lr /\ Stderr res = Stderr lr) /\
  (failed lr ->
   forall rr rerr w2,
     Run os r c w1 = Done (rr, rerr) w2 ->
     exists res err,
       Run os (Or l r) c w =
         Done (res, err)
              (match err with None => w2 ++ [EvDrain 0] | Some _ => w2 end) /\
       Type_ res = OpOr /\
       Children res = [Some lr; Some rr] /\
       nth_error (Children res) 0 = Some (Some lr) /\
       Stdout res = Stdout rr /\ Stderr res = Stderr rr /\
       ExitCode res = ExitCode rr /\
       (Error res = None <-> succeeded rr) /\
       (failed rr -> Error res = Error rr /\ Error res <> None /\ err = rerr) /\
       (err = None <-> Error res = None)).
Proof.
  intros H. pose proof (Run_is_good os _ _ _ _ _ _ H) as [G1 G2 G3 _].
  rewrite (Run_Or_unfold l r c w w1 lr lerr H).
  unfold Pipeline_Run, visit, VisitOr, WaitForBackground, bind, ret, emit.
  simpl. split.
  - intros [E Z0].
    assert (E' : lerr = None) by (apply G1, E). subst lerr.
    rewrite Z0. simpl.
    eexists. split; [reflexivity|]. simpl. repeat split; reflexivity.
  - intros F rr rerr w2 HR.
    assert (E : Error lr <> None).
    { destruct F as [F|F]; [exact F|]. intros E. apply F, G2, E. }
    assert (E' : lerr <> None) by (intros K; apply E, G1, K).
    destruct lerr as [le|]; [|contradiction]. simpl. rewrite HR.
    pose proof (Run_is_good os _ _ _ _ _ _ HR) as [R1 R2 R3 _].
    destruct rerr as [re|]; simpl.
    + (* right failed *)
      assert (ER : Error rr <> None) by (intros K; apply R1 in K; discriminate).
      eexists. exists (Some re). split; [reflexivity|]. simpl.
      unfold succeeded, failed. intuition (try congruence).
    + (* right returned no error *)
      assert (ER : Error rr = None) by (apply R1; reflexivity).
      assert (ZR : ExitCode rr = 0%Z) by (apply R2, ER).
      rewrite ZR. simpl.
      eexists. exists None. split; [reflexivity|]. simpl.
      unfold succeeded, failed. intuition (try congruence).
Qed.

(** *** Pipe *)

(** C2 (failing input): the first stage of a three-stage chain exits with
    status 1, [startNestedPipe] keeps only the runner of the second stage,
    nobody waits for the first, and the Pipe reports success: nil error,
    exit code 0, the output of the last stage. *)
Theorem Pipe_first_stage_failure_unobserved :
  Wait sh {| cmd := {| Command := "false"; Args := [] |}; stdin := [] |} =
    Some (ExitError (Exited 1)) /\
  spawned (worldOf (Run sh falseFirst live [])) =
    [ {| Command := "false"; Args := [] |};
      {| Command := "echo"; Args := ["x"%string] |};
      {| Command := "echo"; Args := ["y"%string] |} ] /\
  errorOf (Run sh falseFirst live []) = None /\
  Error (resultOf (Run sh falseFirst live [])) = None /\
  ExitCode (resultOf (Run sh falseFirst live [])) = 0%Z /\
  Stdout (resultOf (Run sh falseFirst live [])) = bytes "y" ++ [x0a].
Proof. repeat split; reflexivity. Qed.

(** The same chain with the failing stage in the middle is reported, as
    the test [TestPipeFailFast] expects. *)
Lemma Pipe_middle_stage_failure_reported :
  errorOf (Run sh (Pipe (Pipe (echo "x") false_) (echo "y")) live []) =
    Some (ExitError (Exited 1)) /\
  ExitCode (resultOf (Run sh (Pipe (Pipe (echo "x") false_) (echo "y")) live []))
    = 1%Z.
Proof. split; reflexivity. Qed.


(** A left operand that started and handed back no Result, followed by a
    right operand that fails to start, makes [VisitPipe] dereference a nil
    [leftResult]. *)
Lemma VisitPipe_right_start_failure_panics (v : ExecutionVisitor)
    (left_startProcess right_startProcess : ExecutionVisitor -> M started)
    (w w1 w2 : World) (lrun rrun : option ProcessRunner)
    (rres : option Result) (e : error) :
  ctx_Err (ctx v) = None ->
  left_startProcess v w = Done (lrun, None, None) w1 ->
  right_startProcess v w1 = Done (rrun, rres, Some e) w2 ->
  VisitPipe os v left_startProcess right_startProcess w =
    Panic "invalid memory address or nil pointer dereference".
Proof.
  intros Hc HL HR.
  unfold VisitPipe, executePipe, bind. rewrite Hc, HL. simpl. rewrite HR.
  reflexivity.
Qed.

Lemma Pipe_missing_right_panics :
  Run sh (Pipe (echo "x") missing) live [] =
    Panic "invalid memory address or nil pointer dereference".
Proof. reflexivity. Qed.

(** *** Background jobs and the drain *)

Lemma drains_app (w1 w2 : World) : drains (w1 ++ w2) = drains w1 + drains w2.
Proof.
  induction w1 as [|ev w1 IH]; simpl; [reflexivity|].
  destruct ev; simpl; rewrite IH; reflexivity.
Qed.

Lemma spawned_app (w1 w2 : World) :
  spawned (w1 ++ w2) = spawned w1 ++ spawned w2.
Proof.
  induction w1 as [|ev w1 IH]; simpl; [reflexivity|].
  destruct ev; simpl; rewrite IH; reflexivity.
Qed.

(** The loop of the drain appends the collected errors, enters no further
    drain and starts no process. *)
Lemma drainJobs_Done v jobs : forall i result w result' w',
  drainJobs os v i jobs result w = Done result' w' ->
  BackgroundErrors result' =
    BackgroundErrors result ++ collected os (ctx v) i jobs /\
  drains w' = drains w /\ spawned w' = spawned w.
Proof.
  induction jobs as [|job rest IH]; intros i result w result' w' H; simpl in H.
  - exec. simpl. rewrite app_nil_r. auto.
  - apply bind_Done in H. destruct H as (r1 & w1 & H1 & H2).
    apply IH in H2. destruct H2 as (HB & HD & HS).
    rewrite HB, HD, HS. simpl. unfold completion. clear HB HD HS IH.
    destruct (chan_recv (done job)) as [[bg ch]|];
      destruct (ctx_Err (ctx v)); try destruct (os_selectCtx os i);
      try destruct (Error bg) eqn:EB;
      exec; simpl; rewrite ?EB, ?drains_app, ?spawned_app, ?app_nil_r;
      simpl; rewrite <- ?app_assoc; simpl; auto with arith.
Qed.

Lemma WaitForBackground_Done v result w result' w' :
  WaitForBackground os v result w = Done result' w' ->
  same_but_BackgroundErrors result result' /\
  BackgroundErrors result' =
    BackgroundErrors result ++ collected os (ctx v) 0 (backgroundJobs v) /\
  drains w' = S (drains w) /\ spawned w' = spawned w.
Proof.
  intros H. split; [eapply WaitForBackground_frame; exact H|].
  unfold WaitForBackground in H.
  apply bind_Done in H. destruct H as ([] & w1 & HE & H).
  apply emit_Done in HE. subst w1.
  assert (D : drains (w ++ [EvDrain (length (backgroundJobs v))]) = S (drains w)).
  { rewrite drains_app. simpl. lia. }
  assert (S0 : spawned (w ++ [EvDrain (length (backgroundJobs v))]) = spawned w).
  { rewrite spawned_app. simpl. apply app_nil_r. }
  destruct (Nat.eqb (length (backgroundJobs v)) 0) eqn:EL.
  - apply Nat.eqb_eq in EL. apply length_zero_iff_nil in EL.
    exec. rewrite EL in *. simpl. rewrite app_nil_r. auto.
  - apply drainJobs_Done in H. destruct H as (HB & HD & HS).
    rewrite HB, HD, HS. auto.
Qed.

(** Only [VisitBackground] adds jobs to a visitor. *)
Lemma visit_jobs visitor operation l left_Run right_Run ls rs w r err v' w' :
  operation <> OpBackground ->
  visit os visitor operation l left_Run right_Run ls rs w = Done (r, err, v') w' ->
  v' = visitor.
Proof.
  intros Hop H. destruct operation; simpl in H; try contradiction.
  - discriminate H.
  - apply bind_Done in H. destruct H as ([r0 e0] & w1 & _ & H). exec. reflexivity.
  - apply bind_Done in H. destruct H as ([r0 e0] & w1 & _ & H). exec. reflexivity.
  - apply bind_Done in H. destruct H as ([r0 e0] & w1 & _ & H). exec. reflexivity.
Qed.

(** C7: every [Pipeline.Run] enters the drain once when the visit returned
    no error and not at all when it returned one; the drain appends the
    errors of the jobs that completed to the background-errors list and
    leaves type, output, exit code, error, skip flag and children of the
    Result as the visit produced them. *)
Theorem Run_drains_once (operation : OperationType) (l : Executable)
    (r : option Executable) (timeout : Duration) (c : Context) (w w' : World)
    (res : Result) (err : option error) :
  Run os (Pipeline operation l r timeout) c w = Done (res, err) w' ->
  exists res0 v w0,
    visit os {| ctx := c; shutdownTimeout := timeout; backgroundJobs := [] |}
          operation l (Run os l)
          (match r with Some x => Run os x | None => nil_Run end)
          (fun v => startProcess os v l)
          (match r with
           | Some x => fun v => startProcess os v x
           | None => nil_startProcess
           end) w = Done (res0, err, v) w0 /\
    drains w' = drains w0 + (match err with None => 1 | Some _ => 0 end) /\
    (err <> None -> res = res0 /\ w' = w0) /\
    same_but_BackgroundErrors res0 res /\
    BackgroundErrors res =
      BackgroundErrors res0 ++
      (match err with
       | None => collected os c 0 (backgroundJobs v)
       | Some _ => []
       end) /\
    spawned w' = spawned w0.
Proof.
  intros H. simpl in H. unfold Pipeline_Run in H.
  apply bind_Done in H. destruct H as ([[res0 e0] v0] & w0 & HV & H).
  exists res0, v0, w0.
  assert (Hc : ctx v0 = c).
  { clear H. destruct operation; simpl in HV; try discriminate HV.
    - apply bind_Done in HV. destruct HV as ([? ?] & ? & _ & HV). exec. reflexivity.
    - apply bind_Done in HV. destruct HV as ([? ?] & ? & _ & HV). exec. reflexivity.
    - apply bind_Done in HV. destruct HV as ([? ?] & ? & _ & HV). exec. reflexivity.
    - apply VisitBackground_Done in HV. destruct HV as (_ & _ & HV & _). exact HV. }
  subst c. destruct e0 as [e|].
  - exec. split; [exact HV|]. rewrite app_nil_r.
    repeat split; auto with arith.
  - apply bind_Done in H. destruct H as (r1 & w1 & HW & H). exec.
    apply WaitForBackground_Done in HW. destruct HW as (HF & HB & HD & HS).
    split; [exact HV|].
    split; [rewrite HD; lia|]. split; [intros K; contradiction|].
    split; [exact HF|]. split; [exact HB|exact HS].
Qed.

(** What [VisitBackground] returns, given how the detached run ends. *)
Lemma VisitBackground_run (v : ExecutionVisitor) (exec0 : Executable)
    (w w1 : World) (jr : Result) (jerr : option error) :
  Run os exec0 bgCtx (w ++ [EvLaunch exec0]) = Done (jr, jerr) w1 ->
  VisitBackground v exec0 (Run os exec0) w =
    Done (placeholder, None,
          {| ctx := ctx v; shutdownTimeout := shutdownTimeout v;
             backgroundJobs := backgroundJobs v ++ [jobOf exec0 jr] |}) w1.
Proof.
  intros H. unfold VisitBackground, bind, emit. simpl.
  unfold bgCtx in H. simpl in H. rewrite H. reflexivity.
Qed.


(** With a context that is not done the drain receives from every job in
    turn. *)
Lemma drainJobs_live v jobs : forall i result w,
  ctx_Err (ctx v) = None ->
  Forall (fun job => chan_buf (done job) <> []) jobs ->
  drainJobs os v i jobs result w =
    Done (setBackgroundErrors result
            (BackgroundErrors result ++ collected os (ctx v) i jobs))
         (w ++ map (fun job => EvAwait (exec job)) jobs).
Proof.
  induction jobs as [|job rest IH]; intros i result w Hc HJ; simpl.
  - rewrite !app_nil_r. destruct result; reflexivity.
  - inversion HJ as [|? ? Hj Hrest]; subst.
    unfold completion, chan_recv. unfold bind at 1. rewrite Hc.
    destruct (chan_buf (done job)) as [|bg buf]; [contradiction|].
    unfold bind, emit. simpl.
    destruct (Error bg) as [e|]; simpl; rewrite IH by assumption;
      simpl; rewrite <- !app_assoc; reflexivity.
Qed.

Lemma WaitForBackground_live v result w :
  ctx_Err (ctx v) = None ->
  Forall (fun job => chan_buf (done job) <> []) (backgroundJobs v) ->
  WaitForBackground os v result w =
    Done (setBackgroundErrors result
            (BackgroundErrors result ++ collected os (ctx v) 0 (backgroundJobs v)))
         (w ++ EvDrain (length (backgroundJobs v))
            :: map (fun job => EvAwait (exec job)) (backgroundJobs v)).
Proof.
  intros Hc HJ. unfold WaitForBackground. unfold bind at 1, emit.
  destruct (Nat.eqb (length (backgroundJobs v)) 0) eqn:E.
  - apply Nat.eqb_eq, length_zero_iff_nil in E. rewrite E. simpl.
    rewrite app_nil_r. destruct result; reflexivity.
  - rewrite drainJobs_live by assumption. rewrite <- app_assoc. reflexivity.
Qed.

(** [Run] of a Background node under a context that is not done: the job
    is launched, the node's own drain waits for it, and only then does
    [Run] return, with the job's error on the placeholder. *)
Lemma Run_Background_live (x : Executable) (c : Context) (w w1 : World)
    (jr : Result) (jerr : option error) :
  ctx_Err c = None ->
  Run os x bgCtx (w ++ [EvLaunch x]) = Done (jr, jerr) w1 ->
  Run os (Background x) c w =
    Done (drainedPlaceholder jr, None) (w1 ++ [EvDrain 1; EvAwait x]).
Proof.
  intros Hc H. unfold drainedPlaceholder, Background. simpl.
  unfold Pipeline_Run, visit.
  pose proof (VisitBackground_run
                {| ctx := c; shutdownTimeout := shutdownTimeoutOf x;
                   backgroundJobs := [] |} x w w1 jr jerr H) as HV.
  rewrite (bind_eq_Done _ _ _ _ _ HV). simpl.
  erewrite bind_eq_Done; cycle 1.
  { apply WaitForBackground_live; simpl.
    - exact Hc.
    - constructor; [discriminate|constructor]. }
  simpl. unfold ret, completion, chan_recv. simpl. rewrite Hc.
  destruct (Error jr); reflexivity.
Qed.



(** *** A context that is already done *)

(** C8, as the spec states it, fails: run under a cancelled context, a
    Background node returns no error, and its job, which has a context of
    its own, starts a process. *)
Lemma Background_cancelled_succeeds_and_spawns :
  errorOf (Run sh (Background (sleep "1")) cancelled []) = None /\
  Error (resultOf (Run sh (Background (sleep "1")) cancelled [])) = None /\
  spawned (worldOf (Run sh (Background (sleep "1")) cancelled [])) =
    [ {| Command := "sleep"; Args := ["1"%string] |} ].
Proof. repeat split; reflexivity. Qed.

Lemma Run_ctx_done (ce : ctx_error) (e : Executable) :
  backgroundFree e = true ->
  forall c w, ctx_Err c = Some ce ->
  exists r err,
    Run os e c w = Done (r, Some err) w /\ Error r <> None.
Proof.
  induction e as [process timeout|operation l r timeout IHl IHr]
    using Executable_tree_ind; intros HF c w Hc.
  - simpl. unfold VisitProcess. simpl.
    destruct (Exec_ctx_done os process c ce w Hc) as (err & HE).
    rewrite (bind_eq_Done _ _ _ _ _ HE). simpl.
    eexists. eexists. split; [reflexivity|]. simpl. discriminate.
  - destruct r as [x|]; [|destruct operation; discriminate HF].
    assert (HF' : backgroundFree l = true /\ backgroundFree x = true).
    { destruct operation; simpl in HF; try discriminate HF;
        apply andb_prop in HF; exact HF. }
    destruct HF' as [Fl Fx].
    destruct (IHl Fl c w Hc) as (lr & le & HL & EL).
    destruct (IHr x eq_refl Fx c w Hc) as (xr & xe & HX & EX).
    destruct operation; try discriminate HF; simpl;
      unfold Pipeline_Run, visit.
    + (* Pipe *)
      unfold VisitPipe, bind. simpl. rewrite Hc. simpl.
      eexists. eexists. split; [reflexivity|]. simpl. discriminate.
    + (* And *)
      unfold VisitAnd, bind. simpl. rewrite HL. simpl.
      destruct (Error lr) as [e0|] eqn:E0; [|contradiction].
      eexists. eexists. split; [reflexivity|]. simpl. discriminate.
    + (* Or *)
      unfold VisitOr, bind. simpl. rewrite HL. simpl. rewrite HX. simpl.
      destruct (Error xr) as [e0|] eqn:E0; [|contradiction].
      eexists. eexists. split; [reflexivity|]. simpl. discriminate.
Qed.

(** A Background node does not look at the run context before it
    launches its job, and returns no error. *)
Lemma Run_Background_ctx_done (x : Executable) (c : Context) (ce : ctx_error)
    (w w1 : World) (jr : Result) (jerr : option error) :
  ctx_Err c = Some ce ->
  Run os x bgCtx (w ++ [EvLaunch x]) = Done (jr, jerr) w1 ->
  exists res w',
    Run os (Background x) c w = Done (res, None) w' /\
    Error res = None /\ ExitCode res = 0%Z /\ extends w1 w'.
Proof.
  intros Hc H. unfold Background. simpl. unfold Pipeline_Run, visit.
  pose proof (VisitBackground_run
                {| ctx := c; shutdownTimeout := shutdownTimeoutOf x;
                   backgroundJobs := [] |} x w w1 jr jerr H) as HV.
  rewrite (bind_eq_Done _ _ _ _ _ HV). simpl.
  unfold WaitForBackground, bind, emit, ret, chan_recv. simpl. rewrite Hc.
  destruct (os_selectCtx os 0); [|destruct (Error jr)]; simpl;
    eexists; eexists; (split; [reflexivity|]); simpl;
    (split; [reflexivity|]); (split; [reflexivity|]);
    rewrite <- app_assoc; eexists; reflexivity.
Qed.

(** C8 (amended): a Pipe visited with the run context already done returns
    the context's error and a Result that carries nothing else, without
    touching its operands; the Run of any tree without Background nodes
    under such a context returns a non-nil error and leaves the world as it
    was: no process is started; a Background node under such a context
    still launches its job, under the job's own context, and returns no
    error. *)
Theorem Run_cancelled_starts_nothing (c : Context) (ce : ctx_error) (w : World) :
  ctx_Err c = Some ce ->
  (forall v left_startProcess right_startProcess,
     ctx v = c ->
     VisitPipe os v left_startProcess right_startProcess w =
       Done (setError (zeroResult OpPipe) (Some (CtxError ce)),
             Some (CtxError ce)) w) /\
  (forall e,
     backgroundFree e = true ->
     exists r err,
       Run os e c w = Done (r, Some err) w /\ Error r <> None /\
       spawned (worldOf (Run os e c w)) = spawned w) /\
  (forall x jr jerr w1,
     Run os x bgCtx (w ++ [EvLaunch x]) = Done (jr, jerr) w1 ->
     exists res w',
       Run os (Background x) c w = Done (res, None) w' /\
       Error res = None /\ ExitCode res = 0%Z /\ extends w1 w').
Proof.
  intros Hc. split; [|split].
  - intros v ls rs Hv. unfold VisitPipe. rewrite Hv, Hc. reflexivity.
  - intros e HF. destruct (Run_ctx_done ce e HF c w Hc) as (r & err & HR & HE).
    exists r, err. split; [exact HR|]. split; [exact HE|].
    rewrite HR. reflexivity.
  - intros x jr jerr w1 HX.
    apply (Run_Background_ctx_done x c ce w w1 jr jerr Hc HX).
Qed.

(** *** Pipe with an operand that is neither a leaf nor a Pipe *)

Lemma startProcess_ranByRun (v : ExecutionVisitor) (e : Executable) (w : World) :
  ranByRun e = true ->
  startProcess os v e w =
    (do '(result, err) <- Run os e (ctx v) ;; ret (None, Some result, err)) w.
Proof.
  destruct e as [process timeout|operation l r timeout]; simpl;
    [discriminate|].
  intros H. destruct (OperationType_eqb operation OpPipe); [discriminate|].
  reflexivity.
Qed.



Lemma Pipe_composite_left_panics :
  Run sh (Pipe (And true_ true_) cat) live [] = Panic nilDereference.
Proof. reflexivity. Qed.

End Claims.

(** ** The package's tests, replayed (pipeline_test.go)

    [grep] is not part of the example system; [cat] stands in for it. *)

(** TestSimplePipe. *)
Example test_SimplePipe :
  errorOf (Run sh (Pipe (echo "hello world") cat) live []) = None /\
  ExitCode (resultOf (Run sh (Pipe (echo "hello world") cat) live [])) = 0%Z /\
  Stdout (resultOf (Run sh (Pipe (echo "hello world") cat) live [])) =
    bytes "hello world" ++ [x0a].
Proof. repeat split; reflexivity. Qed.

(** TestAndOperatorSuccess, TestResultTree. *)
Example test_AndOperatorSuccess :
  errorOf (Run sh (And true_ (echo "success")) live []) = None /\
  ExitCode (resultOf (Run sh (And true_ (echo "success")) live [])) = 0%Z /\
  Stdout (resultOf (Run sh (And true_ (echo "success")) live [])) =
    bytes "success" ++ [x0a] /\
  Type_ (resultOf (Run sh (And true_ (echo "success")) live [])) = OpAnd /\
  map (option_map Type_)
      (Children (resultOf (Run sh (And true_ (echo "success")) live []))) =
    [Some OpSingle; Some OpSingle].
Proof. repeat split; reflexivity. Qed.

(** TestAndOperatorFailure. *)
Example test_AndOperatorFailure :
  errorOf (Run sh (And false_ (echo "should not run")) live []) =
    Some (ExitError (Exited 1)) /\
  ExitCode (resultOf (Run sh (And false_ (echo "should not run")) live [])) =
    1%Z /\
  Stdout (resultOf (Run sh (And false_ (echo "should not run")) live [])) = [] /\
  map (option_map Skipped)
      (Children (resultOf (Run sh (And false_ (echo "should not run")) live []))) =
    [Some false; Some true] /\
  spawned (worldOf (Run sh (And false_ (echo "should not run")) live [])) =
    [ {| Command := "false"; Args := [] |} ].
Proof. repeat split; reflexivity. Qed.

(** TestOrOperatorSuccess. *)
Example test_OrOperatorSuccess :
  errorOf (Run sh (Or true_ (echo "should not run")) live []) = None /\
  ExitCode (resultOf (Run sh (Or true_ (echo "should not run")) live [])) =
    0%Z /\
  map (option_map Skipped)
      (Children (resultOf (Run sh (Or true_ (echo "should not run")) live []))) =
    [Some false; Some true].
Proof. repeat split; reflexivity. Qed.

(** TestOrOperatorFailure. *)
Example test_OrOperatorFailure :
  errorOf (Run sh (Or false_ (echo "recovered")) live []) = None /\
  ExitCode (resultOf (Run sh (Or false_ (echo "recovered")) live [])) = 0%Z /\
  Stdout (resultOf (Run sh (Or false_ (echo "recovered")) live [])) =
    bytes "recovered" ++ [x0a] /\
  map (option_map Error)
      (Children (resultOf (Run sh (Or false_ (echo "recovered")) live []))) =
    [Some (Some (ExitError (Exited 1))); Some None].
Proof. repeat split; reflexivity. Qed.

(** TestComplexPipeline. *)
Example test_ComplexPipeline :
  errorOf (Run sh (Or (And (Pipe (echo "test") cat) (echo "found"))
                      (echo "not found")) live []) = None /\
  Stdout (resultOf (Run sh (Or (And (Pipe (echo "test") cat) (echo "found"))
                               (echo "not found")) live [])) =
    bytes "found" ++ [x0a].
Proof. repeat split; reflexivity. Qed.

(** TestBackgroundExecution. *)
Example test_BackgroundExecution :
  errorOf (Run sh (Background (sleep "0.1")) live []) = None /\
  ExitCode (resultOf (Run sh (Background (sleep "0.1")) live [])) = 0%Z.
Proof. repeat split; reflexivity. Qed.

(** ** The theorems at work on concrete trees *)

Lemma Run_exit_code_invariant_witness :
  ctx_Err live = None /\
  Run sh (Or false_ (echo "y")) live [] =
    Done (resultOf (Run sh (Or false_ (echo "y")) live []), None)
         (worldOf (Run sh (Or false_ (echo "y")) live [])) /\
  exit_iff_nil (resultOf (Run sh (Or false_ (echo "y")) live [])) /\
  (forall d, subresult d (resultOf (Run sh (Or false_ (echo "y")) live [])) ->
             exit_iff_nil d \/ d = notStarted).
Proof.
  split; [reflexivity|]. split; [reflexivity|].
  destruct (Run_exit_code_invariant sh (Or false_ (echo "y")) live [] _ _ _
              eq_refl eq_refl) as (HL & _ & HT).
  split; [exact HL|exact HT].
Defined.

Lemma And_short_circuit_witness :
  Run sh false_ live [] =
    Done (resultOf (Run sh false_ live []), Some (ExitError (Exited 1)))
         [EvSpawn {| Command := "false"; Args := [] |}] /\
  failed (resultOf (Run sh false_ live [])) /\
  exists res,
    Run sh (And false_ (echo "x")) live [] =
      Done (res, Some (ExitError (Exited 1)))
           [EvSpawn {| Command := "false"; Args := [] |}] /\
    Children res = [Some (resultOf (Run sh false_ live [])); Some skippedResult] /\
    ExitCode res = 1%Z.
Proof.
  split; [reflexivity|].
  assert (F : failed (resultOf (Run sh false_ live []))).
  { right. simpl. lia. }
  split; [exact F|].
  destruct (proj1 (And_short_circuit sh false_ (echo "x") live [] _ _ _ eq_refl) F)
    as (res & H1 & _ & H3 & _ & _ & _ & _ & _ & _ & H10 & _).
  exists res. split; [exact H1|]. split; [exact H3|exact H10].
Defined.

Lemma Or_recovery_witness :
  Run sh false_ live [] =
    Done (resultOf (Run sh false_ live []), Some (ExitError (Exited 1)))
         [EvSpawn {| Command := "false"; Args := [] |}] /\
  failed (resultOf (Run sh false_ live [])) /\
  exists res err,
    Run sh (Or false_ (echo "y")) live [] =
      Done (res, err)
           (match err with
            | None => worldOf (Run sh (echo "y") live
                                 [EvSpawn {| Command := "false"; Args := [] |}])
                      ++ [EvDrain 0]
            | Some _ => worldOf (Run sh (echo "y") live
                                   [EvSpawn {| Command := "false"; Args := [] |}])
            end) /\
    nth_error (Children res) 0 = Some (Some (resultOf (Run sh false_ live []))) /\
    (Error res = None <->
     succeeded (resultOf (Run sh (echo "y") live
                            [EvSpawn {| Command := "false"; Args := [] |}]))).
Proof.
  split; [reflexivity|].
  assert (F : failed (resultOf (Run sh false_ live []))).
  { right. simpl. lia. }
  split; [exact F|].
  destruct (proj2 (Or_recovery sh false_ (echo "y") live [] _ _ _ eq_refl) F
              _ _ _ eq_refl)
    as (res & err & H1 & _ & _ & H4 & _ & _ & _ & H8 & _).
  exists res, err. split; [exact H1|]. split; [exact H4|exact H8].
Defined.



Lemma Run_drains_once_witness :
  exists res0 v w0,
    visit sh {| ctx := live; shutdownTimeout := (5 * Second)%Z;
                backgroundJobs := [] |}
          OpBackground false_ (Run sh false_) nil_Run
          (fun v => startProcess sh v false_) nil_startProcess [] =
      Done (res0, None, v) w0 /\
    drains (worldOf (Run sh (Background false_) live [])) = drains w0 + 1 /\
    BackgroundErrors (resultOf (Run sh (Background false_) live [])) =
      BackgroundErrors res0 ++ [ExitError (Exited 1)].
Proof.
  destruct (Run_drains_once sh OpBackground false_ None (5 * Second)%Z live []
              _ _ _ eq_refl)
    as (res0 & v & w0 & H1 & H2 & _ & _ & H5 & _).
  exists res0, v, w0. split; [exact H1|]. split; [exact H2|].
  etransitivity; [exact H5|]. f_equal.
  unfold visit in H1. simpl in H1. inversion H1. reflexivity.
Defined.

Lemma Run_cancelled_starts_nothing_witness :
  ctx_Err cancelled = Some Canceled /\
  backgroundFree (Or (And (echo "a") cat) (Pipe (echo "b") cat)) = true /\
  exists r err,
    Run sh (Or (And (echo "a") cat) (Pipe (echo "b") cat)) cancelled [] =
      Done (r, Some err) [] /\
    Error r <> None.
Proof.
  split; [reflexivity|]. split; [reflexivity|].
  destruct (proj1 (proj2 (Run_cancelled_starts_nothing sh cancelled Canceled []
                            eq_refl))
              (Or (And (echo "a") cat) (Pipe (echo "b") cat)) eq_refl)
    as (r & err & H1 & H2 & _).
  exists r, err. split; [exact H1|exact H2].
Defined.



Lemma VisitPipe_right_start_failure_panics_witness :
  VisitPipe sh liveVisitor
    (fun v => startProcess sh v (echo "x"))
    (fun v => startProcess sh v missing) [] = Panic nilDereference.
Proof.
  exact (VisitPipe_right_start_failure_panics sh liveVisitor
           (fun v => startProcess sh v (echo "x"))
           (fun v => startProcess sh v missing)
           [] _ _ _ _ _ _ eq_refl eq_refl eq_refl).
Defined.

(** ** The heap: [WithShutdownTimeout] *)

Section StoreFacts.

Import Store.

Lemma setTimeout_sameButTimeout (n : Node) (d : Duration) :
  sameButTimeout n (setTimeout n d) /\ timeoutOfNode (setTimeout n d) = d.
Proof. destruct n; simpl; auto. Qed.

Lemma lookup_retimed (h : Heap) (p q : ref) (n : Node) (d : Duration) :
  h !! p = Some n ->
  (<[p := setTimeout n d]> h) !! q =
    if Nat.eqb q p then Some (setTimeout n d) else h !! q.
Proof.
  intros Hp. destruct (Nat.eqb q p) eqn:E.
  - apply Nat.eqb_eq in E. subst q. apply list_lookup_insert_eq.
    apply lookup_lt_Some in Hp. exact Hp.
  - apply Nat.eqb_neq in E. apply list_lookup_insert_ne. congruence.
Qed.

(** Assigning a timeout moves no operand: every path leads where it led. *)
Lemma walk_retimed (h : Heap) (p : ref) (n : Node) (d : Duration) :
  h !! p = Some n ->
  forall path q, walk (<[p := setTimeout n d]> h) q path = walk h q path.
Proof.
  intros Hp. induction path as [|b rest IH]; intros q; simpl;
    rewrite (lookup_retimed h p q n d Hp).
  - destruct (Nat.eqb q p) eqn:E; [|reflexivity].
    apply Nat.eqb_eq in E. subst q. rewrite Hp. reflexivity.
  - destruct (Nat.eqb q p) eqn:E.
    + apply Nat.eqb_eq in E. subst q. rewrite Hp.
      destruct n as [pr t|o l r t]; simpl; [reflexivity|].
      destruct b; [destruct r|]; rewrite ?IH; reflexivity.
    + destruct (h !! q) as [[pr t|o l r t]|]; try reflexivity.
      destruct b; [destruct r|]; rewrite ?IH; reflexivity.
Qed.

(** Reading a tree does not look at objects allocated later. *)
Lemma load_app (h k : Heap) : forall fuel e t,
  load fuel h e = Some t -> load fuel (h ++ k) e = Some t.
Proof.
  induction fuel as [|fuel IH]; intros e t H; simpl in *; [discriminate|].
  destruct (h !! e) as [n|] eqn:E; [|discriminate].
  rewrite (lookup_app_l_Some _ _ _ _ E).
  destruct n as [pr d|o l r d]; [exact H|].
  destruct (load fuel h l) as [lt|] eqn:EL; [|discriminate].
  rewrite (IH _ _ EL).
  destruct r as [r'|]; [|exact H].
  destruct (load fuel h r') as [rt|] eqn:ER; [|discriminate].
  rewrite (IH _ _ ER). exact H.
Qed.

(** The heap combinator builds the node the tree combinator builds. *)
Lemma load_Pipe (h h' : Heap) (e next q : ref) (fuel : nat) (te tn : Executable) :
  load fuel h e = Some te -> load fuel h next = Some tn ->
  Pipe h e next = Some (h', q) ->
  load (S fuel) h' q = Some (treePipe te tn).
Proof.
  intros He Hn HP. unfold Pipe in HP.
  destruct (h !! e) as [n|] eqn:E; [|discriminate].
  unfold alloc in HP. inversion HP; subst h' q. clear HP.
  simpl. rewrite lookup_app_r by lia. rewrite Nat.sub_diag. simpl.
  rewrite (load_app _ _ _ _ _ He), (load_app _ _ _ _ _ Hn).
  change (treePipe te tn)
    with (Pipeline OpPipe te (Some tn) (shutdownTimeoutOf te)).
  f_equal. f_equal.
  destruct fuel as [|fuel]; [discriminate|]. simpl in He. rewrite E in He.
  destruct n as [pr d|o l r d]; simpl.
  - inversion He. reflexivity.
  - destruct (load fuel h l); [|discriminate].
    destruct r; [destruct (load fuel h r)|]; inversion He; reflexivity.
Qed.

(** C10: p.WithShutdownTimeout(d) returns p itself and allocates nothing;
    the object at p keeps its operation tag and operands (or its process)
    and has timeout d; no other object changes; and every tree built
    before, from whatever address and along whatever path it reaches p,
    still reaches p there and reads the new timeout. *)
Theorem WithShutdownTimeout_in_place (h : Heap) (p : ref) (n : Node)
    (d : Duration) :
  h !! p = Some n ->
  exists h',
    WithShutdownTimeout h p d = Some (h', p) /\
    length h' = length h /\
    h' !! p = Some (setTimeout n d) /\
    sameButTimeout n (setTimeout n d) /\
    timeoutOfNode (setTimeout n d) = d /\
    (forall q, q <> p -> h' !! q = h !! q) /\
    (forall q path, walk h q path = Some p -> walk h' q path = Some p) /\
    (forall fuel t, load fuel h' p = Some t -> shutdownTimeoutOf t = d).
Proof.
  intros Hp. exists (<[p := setTimeout n d]> h).
  pose proof (setTimeout_sameButTimeout n d) as [HS HT].
  assert (HL : (<[p := setTimeout n d]> h) !! p = Some (setTimeout n d)).
  { rewrite (lookup_retimed h p p n d Hp), Nat.eqb_refl. reflexivity. }
  split; [unfold WithShutdownTimeout; rewrite Hp; reflexivity|].
  split; [apply length_insert|].
  split; [exact HL|]. split; [exact HS|]. split; [exact HT|].
  split; [|split].
  - intros q Hq. rewrite (lookup_retimed h p q n d Hp).
    destruct (Nat.eqb q p) eqn:E; [|reflexivity].
    apply Nat.eqb_eq in E. contradiction.
  - intros q path Hw. rewrite (walk_retimed h p n d Hp). exact Hw.
  - intros fuel t Ht. destruct fuel as [|fuel]; simpl in Ht; [discriminate|].
    rewrite HL in Ht.
    destruct n as [pr t0|o l r t0]; simpl in Ht.
    + inversion Ht. reflexivity.
    + destruct (load fuel _ l); [|discriminate].
      destruct r as [r'|]; [destruct (load fuel _ r')|];
        inversion Ht; reflexivity.
Qed.

Lemma WithShutdownTimeout_in_place_witness :
  sample !! 0 =
    Some (NProcess {| Command := "echo"; Args := ["x"%string] |} (5 * Second)%Z) /\
  walk sample 2 [false] = Some 0 /\
  exists h',
    WithShutdownTimeout sample 0 Second = Some (h', 0) /\
    length h' = 3 /\
    walk h' 2 [false] = Some 0 /\
    h' !! 0 = Some (NProcess {| Command := "echo"; Args := ["x"%string] |} Second) /\
    h' !! 2 = sample !! 2.
Proof.
  split; [reflexivity|]. split; [reflexivity|].
  destruct (WithShutdownTimeout_in_place sample 0 _ Second eq_refl)
    as (h' & H1 & H2 & H3 & _ & _ & H6 & H7 & _).
  exists h'. split; [exact H1|]. split; [exact H2|].
  split; [apply H7; reflexivity|]. split; [exact H3|].
  apply H6. discriminate.
Defined.

End StoreFacts.

(** ** Further properties of the engine *)

Section Leaves.

Variable os : OS.

Lemma Exec_starts (p : Process) (c : Context) (w : World) :
  leafStarts os c p = true ->
  Exec os p c w = Done (inl {| cmd := p; stdin := [] |}) (w ++ [EvSpawn p]).
Proof.
  unfold leafStarts, Exec, cmd_Start, bind, ret, emit.
  destruct (os_pipeErr os p); [discriminate|].
  destruct (os_lookPathErr os p); [discriminate|].
  destruct (ctx_Err c); [discriminate|].
  destruct (os_startErr os p); [discriminate|]. reflexivity.
Qed.

Lemma Exec_fails (p : Process) (c : Context) (w : World) :
  leafStarts os c p = false ->
  exists e, Exec os p c w = Done (inr e) w.
Proof.
  unfold leafStarts, Exec, cmd_Start, bind, ret, emit.
  destruct (os_pipeErr os p); [eauto|].
  destruct (os_lookPathErr os p); [eauto|].
  destruct (ctx_Err c); [eauto|].
  destruct (os_startErr os p); [eauto|discriminate].
Qed.

(** What the Run of a leaf returns, in both cases of [leafStarts]. *)
Lemma Run_leaf_fails (p : Process) (d : Duration) (c : Context) (w : World) :
  leafStarts os c p = false ->
  exists e,
    Run os (ExecutableProcess p d) c w =
      Done (setExitCode
              (setError (zeroResult OpSingle)
                 (Some (WrapError "failed to start process" e))) (-1)%Z,
            Some e) w.
Proof.
  intros H. destruct (Exec_fails p c w H) as (e & HE). exists e.
  simpl. unfold VisitProcess. simpl.
  rewrite (bind_eq_Done _ _ _ _ _ HE). reflexivity.
Qed.

Lemma Run_leaf_starts (p : Process) (d : Duration) (c : Context) (w : World) :
  leafStarts os c p = true ->
  Run os (ExecutableProcess p d) c w =
    Done (setError
            (setExitCode
               (setStdout (zeroResult OpSingle) (fst (os_behave os p [])))
               (getExitCode (cmd_Wait (snd (os_behave os p [])))))
            (cmd_Wait (snd (os_behave os p []))),
          cmd_Wait (snd (os_behave os p [])))
         (w ++ [EvSpawn p]).
Proof.
  intros H. simpl. unfold VisitProcess. simpl.
  rewrite (bind_eq_Done _ _ _ _ _ (Exec_starts p c w H)). reflexivity.
Qed.



End Leaves.


Section Chains.

Variable os : OS.

Lemma chainOf_snoc (d : Duration) (p : Process) (qs : list Process)
    (q : Process) :
  chainOf d p (qs ++ [q]) =
    Pipeline OpPipe (chainOf d p qs) (Some (stage d q))
      (shutdownTimeoutOf (chainOf d p qs)).
Proof. unfold chainOf. rewrite fold_left_app. reflexivity. Qed.

Lemma flow_snoc (input : list byte) (ps : list Process) (q : Process) :
  flow os input (ps ++ [q]) = fst (os_behave os q (flow os input ps)).
Proof. unfold flow. rewrite fold_left_app. reflexivity. Qed.

Lemma startProcess_leaf_starts (v : ExecutionVisitor) (p : Process)
    (d : Duration) (w : World) :
  leafStarts os (ctx v) p = true ->
  startProcess os v (ExecutableProcess p d) w =
    Done (Some {| cmd := p; stdin := [] |}, None, None) (w ++ [EvSpawn p]).
Proof.
  intros H. simpl.
  rewrite (bind_eq_Done _ _ _ _ _ (Exec_starts os p (ctx v) w H)). reflexivity.
Qed.

(** Starting a chain of leaves that all start: every stage is spawned, left
    to right, and the runner handed back is the last stage reading what the
    stages before it produce. *)
Lemma startProcess_chain (v : ExecutionVisitor) (d : Duration) (p : Process)
    (qs : list Process) :
  forallb (leafStarts os (ctx v)) (p :: qs) = true ->
  forall w,
    startProcess os v (chainOf d p qs) w =
      Done (Some {| cmd := List.last qs p;
                    stdin := flow os [] (List.removelast (p :: qs)) |},
            None, None)
           (w ++ map EvSpawn (p :: qs)).
Proof.
  induction qs as [|q qs IH] using rev_ind; intros H w.
  - simpl in H. apply andb_prop in H. destruct H as [H _].
    exact (startProcess_leaf_starts v p d w H).
  - change (p :: qs ++ [q]) with ((p :: qs) ++ [q]) in *.
    rewrite forallb_app in H. apply andb_prop in H. destruct H as [H Hq].
    simpl in Hq. apply andb_prop in Hq. destruct Hq as [Hq _].
    rewrite chainOf_snoc. simpl startProcess. unfold startNestedPipe.
    rewrite (bind_eq_Done _ _ _ _ _ (IH H w)). cbv beta iota.
    change (startProcess os v (stage d q))
      with (startProcess os v (ExecutableProcess q d)).
    rewrite (bind_eq_Done _ _ _ _ _
               (startProcess_leaf_starts v q d _ Hq)).
    cbv beta iota. unfold deref, bind, ret, Copy, ReadAll. cbn [cmd stdin].
    rewrite List.last_last, List.removelast_last, map_app, <- app_assoc.
    rewrite app_nil_l.
    assert (HF : fst (os_behave os (List.last qs p)
                        (flow os [] (List.removelast (p :: qs)))) =
                 flow os [] (p :: qs)).
    { clear. destruct qs as [|a l] using rev_ind; [reflexivity|].
      change (p :: l ++ [a]) with ((p :: l) ++ [a]).
      rewrite List.last_last, List.removelast_last, flow_snoc. reflexivity. }
    rewrite HF. reflexivity.
Qed.

Lemma VisitPipe_runners (v : ExecutionVisitor)
    (left_startProcess right_startProcess : ExecutionVisitor -> M started)
    (w w1 w2 : World) (leftR rightR : ProcessRunner)
    (lres rres : option Result) :
  ctx_Err (ctx v) = None ->
  left_startProcess v w = Done (Some leftR, lres, None) w1 ->
  right_startProcess v w1 = Done (Some rightR, rres, None) w2 ->
  let leftErr := Wait os leftR in
  let rightErr := Wait os (Copy os rightR leftR) in
  let err := match leftErr with Some _ => leftErr | None => rightErr end in
  exists res,
    VisitPipe os v left_startProcess right_startProcess w =
      Done (res, err) w2 /\
    Error res = err /\
    ExitCode res = getExitCode err /\
    (err = None -> Stdout res = ReadAll os (Copy os rightR leftR)).
Proof.
  intros Hc HL HR leftErr rightErr err. subst err.
  unfold VisitPipe, executePipe, bind. rewrite Hc, HL. simpl. rewrite HR. simpl.
  fold leftErr rightErr.
  destruct leftErr as [le|] eqn:EL; simpl.
  - eexists. split; [reflexivity|]. simpl. repeat split. discriminate.
  - destruct rightErr as [re|] eqn:ER; simpl.
    + eexists. split; [reflexivity|]. simpl. repeat split. discriminate.
    + eexists. split; [reflexivity|]. simpl. repeat split.
Qed.


End Chains.


(** ** The shape of result trees *)

Section Shapes.

Variable os : OS.

Lemma shaped_Stderr (r : Result) : shaped r -> Stderr r = [].
Proof. intros H. destruct H; try assumption; reflexivity. Qed.

Lemma shaped_BackgroundErrors (r : Result) :
  shaped r -> BackgroundErrors r <> [] -> Type_ r = OpBackground.
Proof. intros H N. destruct H; try contradiction; try assumption. Qed.

Lemma shaped_Children (r : Result) :
  shaped r ->
  Children r = [] \/
  exists l x, Children r = [Some l; Some x] /\ shaped l /\ shaped x.
Proof.
  intros H. destruct H; try (left; assumption); try (left; reflexivity).
  right. eauto.
Qed.

Lemma shaped_subresult (d r : Result) : subresult d r -> shaped r -> shaped d.
Proof.
  induction 1 as [r|d c r Hin Hsub IH]; intros S; [exact S|].
  apply IH. destruct (shaped_Children r S) as [E|(l & x & E & Sl & Sx)].
  - rewrite E in Hin. destruct Hin.
  - rewrite E in Hin. destruct Hin as [K|[K|[]]]; inversion K; subst; assumption.
Qed.

Lemma VisitProcess_shaped v process w r err w' :
  VisitProcess os v process w = Done (r, err) w' ->
  shaped r /\ Type_ r = OpSingle.
Proof.
  unfold VisitProcess. intros H. exec;
    (split; [apply shaped_Single|]; reflexivity).
Qed.

Lemma VisitAnd_shaped v left_Run right_Run :
  Run_shaped left_Run -> Run_shaped right_Run ->
  forall w r err w',
    VisitAnd v left_Run right_Run w = Done (r, err) w' ->
    shaped r /\ Type_ r = OpAnd.
Proof.
  intros HL HR w r err w' H. unfold VisitAnd in H.
  apply bind_Done in H. destruct H as ([lr lerr] & w1 & H1 & H).
  apply HL in H1.
  destruct (notNil lerr || negb (ExitCode lr =? 0)%Z) eqn:C.
  - exec. split; [|reflexivity].
    apply (shaped_node _ lr skippedResult); simpl; auto using shaped_skipped.
    apply shaped_Stderr. exact H1.
  - apply bind_Done in H. destruct H as ([rr rerr] & w2 & H2 & H).
    apply HR in H2. exec. split; [|reflexivity].
    apply (shaped_node _ lr rr); simpl; auto.
    apply shaped_Stderr. exact H2.
Qed.

Lemma VisitOr_shaped v left_Run right_Run :
  Run_shaped left_Run -> Run_shaped right_Run ->
  forall w r err w',
    VisitOr v left_Run right_Run w = Done (r, err) w' ->
    shaped r /\ Type_ r = OpOr.
Proof.
  intros HL HR w r err w' H. unfold VisitOr in H.
  apply bind_Done in H. destruct H as ([lr lerr] & w1 & H1 & H).
  apply HL in H1.
  destruct (negb (notNil lerr) && (ExitCode lr =? 0)%Z) eqn:C.
  - exec. split; [|reflexivity].
    apply (shaped_node _ lr skippedResult); simpl; auto using shaped_skipped.
    apply shaped_Stderr. exact H1.
  - apply bind_Done in H. destruct H as ([rr rerr] & w2 & H2 & H).
    apply HR in H2.
    destruct (negb (notNil rerr) && (ExitCode rr =? 0)%Z) eqn:C2; exec;
      (split; [|reflexivity]);
      apply (shaped_node _ lr rr); simpl; auto;
      apply shaped_Stderr; exact H2.
Qed.

Lemma VisitPipe_shaped v left_startProcess right_startProcess :
  start_shaped left_startProcess -> start_shaped right_startProcess ->
  forall w r err w',
    VisitPipe os v left_startProcess right_startProcess w = Done (r, err) w' ->
    shaped r /\ Type_ r = OpPipe.
Proof.
  intros HL HR w r err w' H. unfold VisitPipe in H.
  destruct (ctx_Err (ctx v)) as [ce|] eqn:Hctx.
  { exec. split; [|reflexivity].
    apply shaped_Pipe_unrun; simpl; try reflexivity. discriminate. }
  apply bind_Done in H. destruct H as ([[lres rres] perr] & w1 & HE & H).
  unfold executePipe in HE.
  apply bind_Done in HE. destruct HE as ([[lrun lres0] lerr] & w2 & HLs & HE).
  apply HL in HLs. destruct HLs as [SL NL].
  destruct lerr as [le|].
  { (* the left operand did not start *)
    apply ret_Done in HE. destruct HE as [HE ->].
    inversion HE; subst; clear HE.
    apply bind_Done in H. destruct H as (l & w4 & Hd & H).
    apply deref_Done in Hd. destruct Hd as [-> ->].
    pose proof (SL l eq_refl) as Sl.
    assert (Sx : shaped (setExitCode (zeroResult OpSingle) (-1)%Z)).
    { apply shaped_Single; reflexivity. }
    simpl in H. destruct (Error l); exec; (split; [|reflexivity]).
    - eapply shaped_node; simpl; eauto. apply shaped_Stderr. exact Sl.
    - eapply shaped_node; simpl; eauto. }
  apply bind_Done in HE. destruct HE as ([[rrun rres0] rerr] & w3 & HRs & HE).
  apply HR in HRs. destruct HRs as [SR NR].
  destruct rerr as [re|].
  { (* the right operand did not start *)
    apply ret_Done in HE. destruct HE as [HE ->].
    inversion HE; subst; clear HE.
    apply bind_Done in H. destruct H as (l & w4 & Hd & H).
    apply deref_Done in Hd. destruct Hd as [-> ->].
    pose proof (SL l eq_refl) as Sl.
    destruct rres as [x|]; [|exfalso; apply NR; [discriminate|reflexivity]].
    pose proof (SR x eq_refl) as Sx.
    simpl in H. destruct (Error l); exec; (split; [|reflexivity]).
    - eapply shaped_node; simpl; eauto. apply shaped_Stderr. exact Sl.
    - eapply shaped_node; simpl; eauto. apply shaped_Stderr. exact Sx. }
  (* both operands started *)
  apply bind_Done in HE. destruct HE as (rightR & w4 & Hd1 & HE).
  apply deref_Done in Hd1. destruct Hd1 as [-> ->].
  apply bind_Done in HE. destruct HE as (leftR & w5 & Hd2 & HE).
  apply deref_Done in Hd2. destruct Hd2 as [-> ->].
  assert (Sl : shaped (setError (setExitCode (zeroResult OpSingle)
                         (getExitCode (Wait os leftR))) (Wait os leftR))).
  { apply shaped_Single; reflexivity. }
  assert (Sx : shaped (setError (setExitCode
                         (setStdout (zeroResult OpSingle)
                            (ReadAll os (Copy os rightR leftR)))
                         (getExitCode (Wait os (Copy os rightR leftR))))
                         (Wait os (Copy os rightR leftR)))).
  { apply shaped_Single; reflexivity. }
  destruct (Wait os leftR) as [le|] eqn:EL.
  { exec; (split; [|reflexivity]); eapply shaped_node; simpl; eauto. }
  destruct (Wait os (Copy os rightR leftR)) as [re|] eqn:ER.
  { exec; (split; [|reflexivity]); eapply shaped_node; simpl; eauto. }
  exec; (split; [|reflexivity]); eapply shaped_node; simpl; eauto.
Qed.

Lemma visit_shaped visitor operation l left_Run right_Run
      left_startProcess right_startProcess :
  Run_shaped left_Run -> Run_shaped right_Run ->
  start_shaped left_startProcess -> start_shaped right_startProcess ->
  forall w r err visitor' w',
    visit os visitor operation l left_Run right_Run
          left_startProcess right_startProcess w = Done (r, err, visitor') w' ->
    Type_ r = operation /\ shaped r /\
    (operation <> OpBackground -> visitor' = visitor).
Proof.
  intros HL HR SL SR w r err visitor' w' H.
  destruct operation; simpl in H.
  - discriminate H.
  - apply bind_Done in H. destruct H as ([r0 e0] & w1 & H1 & H). exec.
    destruct (VisitPipe_shaped _ _ _ SL SR _ _ _ _ H1). auto.
  - apply bind_Done in H. destruct H as ([r0 e0] & w1 & H1 & H). exec.
    destruct (VisitAnd_shaped _ _ _ HL HR _ _ _ _ H1). auto.
  - apply bind_Done in H. destruct H as ([r0 e0] & w1 & H1 & H). exec.
    destruct (VisitOr_shaped _ _ _ HL HR _ _ _ _ H1). auto.
  - apply VisitBackground_Done in H. destruct H as (-> & -> & _ & _).
    split; [reflexivity|]. split; [|intros N; contradiction].
    apply shaped_Background; reflexivity.
Qed.

Lemma Pipeline_Run_shaped operation l left_Run right_Run
      left_startProcess right_startProcess timeout :
  Run_shaped left_Run -> Run_shaped right_Run ->
  start_shaped left_startProcess -> start_shaped right_startProcess ->
  forall c w r err w',
    Pipeline_Run os operation l left_Run right_Run
      left_startProcess right_startProcess timeout c w = Done (r, err) w' ->
    shaped r /\ Type_ r = operation.
Proof.
  intros HL HR SL SR c w r err w' H. unfold Pipeline_Run in H.
  apply bind_Done in H. destruct H as ([[r0 e0] v0] & w1 & H1 & H).
  eapply visit_shaped in H1; try eassumption. destruct H1 as (T & S & V).
  subst operation. destruct e0 as [e|].
  - exec. split; [assumption|reflexivity].
  - apply bind_Done in H. destruct H as (r1 & w2 & HW & H).
    apply ret_Done in H. destruct H as [H ->]. inversion H; subst; clear H.
    destruct (OperationType_eqb (Type_ r0) OpBackground) eqn:B.
    + (* a Background node: the drain may add background errors *)
      apply WaitForBackground_frame in HW.
      destruct HW as (F1 & F2 & F3 & F4 & F5 & F6 & F7).
      assert (TB : Type_ r0 = OpBackground).
      { destruct (Type_ r0); try discriminate B. reflexivity. }
      split; [|exact F1].
      inversion S; try congruence.
      * subst r0. discriminate TB.
      * apply shaped_Background; congruence.
      * destruct H as [K|[K|K]]; congruence.
    + (* no job was registered *)
      assert (NB : Type_ r0 <> OpBackground).
      { intros K. rewrite K in B. discriminate B. }
      rewrite (V NB) in HW. unfold WaitForBackground in HW. simpl in HW.
      exec. split; [exact S|reflexivity].
Qed.

Lemma startNestedPipe_shaped left_startProcess right_startProcess :
  start_shaped
    (fun v => startNestedPipe os v left_startProcess right_startProcess).
Proof.
  intros v w run res err w' H. unfold startNestedPipe in H.
  apply bind_Done in H. destruct H as ([[lrun lres] lerr] & w1 & _ & H).
  destruct lerr as [le|].
  { exec. split; [|discriminate].
    intros r E. inversion E; subst.
    apply shaped_Pipe_unrun; simpl; try reflexivity. discriminate. }
  apply bind_Done in H. destruct H as ([[rrun rres] rerr] & w2 & _ & H).
  destruct rerr as [re|].
  { exec. split; [|discriminate].
    intros r E. inversion E; subst.
    apply shaped_Pipe_unrun; simpl; try reflexivity. discriminate. }
  exec. split; [discriminate|]. intros N. contradiction.
Qed.

(** Every [Run] hands back a shaped Result with the tag of its node, and
    every [startProcess] a shaped Result or none. *)
Lemma Run_startProcess_shaped (e : Executable) :
  (forall c w r err w',
     Run os e c w = Done (r, err) w' -> shaped r /\ Type_ r = tagOf e) /\
  start_shaped (fun v => startProcess os v e).
Proof.
  induction e as [process timeout|operation l r timeout [IHl IHsl] IHr]
    using Executable_tree_ind.
  - split.
    + intros c w r err w' H. simpl in H.
      apply VisitProcess_shaped in H. exact H.
    + intros v w run res err w' H. simpl in H.
      apply bind_Done in H. destruct H as (st & w1 & _ & H).
      destruct st as [runner|e0]; exec.
      * split; [discriminate|]. intros N. contradiction.
      * split; [|discriminate]. intros r E. inversion E; subst.
        apply shaped_Single; reflexivity.
  - assert (HL : Run_shaped (Run os l)).
    { intros c w r0 err w' H. apply IHl in H. apply H. }
    assert (HR : Run_shaped
                   (match r with Some x => Run os x | None => nil_Run end)).
    { destruct r as [x|].
      - intros c w r0 err w' H. apply (IHr x eq_refl) in H. apply H.
      - intros c w r0 err w' H. discriminate H. }
    assert (SR : start_shaped (match r with
                               | Some x => fun v => startProcess os v x
                               | None => nil_startProcess
                               end)).
    { destruct r as [x|]; [apply (IHr x eq_refl)|].
      intros v w run res err w' H. discriminate H. }
    split.
    + intros c w r0 err w' H. simpl in H.
      eapply Pipeline_Run_shaped in H; eassumption.
    + intros v w run res err w' H. simpl in H.
      destruct (OperationType_eqb operation OpPipe).
      * eapply (startNestedPipe_shaped _ _ v). exact H.
      * apply bind_Done in H. destruct H as ([r0 e0] & w1 & H1 & H). exec.
        eapply Pipeline_Run_shaped in H1; try eassumption.
        split; [|discriminate]. intros r1 E. inversion E; subst. apply H1.
Qed.

End Shapes.


Section ShapeTheorems.

Variable os : OS.

Lemma Run_shaped_tree (e : Executable) c w r err w' (d : Result) :
  Run os e c w = Done (r, err) w' -> subresult d r -> shaped d.
Proof.
  intros H Hd. eapply shaped_subresult; [exact Hd|].
  apply (proj1 (Run_startProcess_shaped os e)) in H. apply H.
Qed.

(** No Run ever puts anything in [Stderr]: the field is empty on the Result
    returned and on every Result below it, whatever the processes wrote and
    however they ended.  What a process writes to its standard error is
    part of [Stdout]. *)
Theorem Run_Stderr_empty (e : Executable) (c : Context) (w w' : World)
    (r : Result) (err : option error) (d : Result) :
  Run os e c w = Done (r, err) w' ->
  subresult d r ->
  Stderr d = [].
Proof.
  intros H Hd. apply shaped_Stderr. eapply Run_shaped_tree; eassumption.
Qed.

(** Background errors are recorded on the Result of the Background node
    that launched the job and nowhere else: in the result tree of any Run,
    a Result with a non-empty [BackgroundErrors] has the tag Background.
    The Result of a Single, Pipe, And or Or run has none, also when a
    job below it failed. *)
Theorem Run_BackgroundErrors_on_Background_only (e : Executable)
    (c : Context) (w w' : World) (r : Result) (err : option error)
    (d : Result) :
  Run os e c w = Done (r, err) w' ->
  subresult d r ->
  BackgroundErrors d <> [] ->
  Type_ d = OpBackground.
Proof.
  intros H Hd. apply shaped_BackgroundErrors.
  eapply Run_shaped_tree; eassumption.
Qed.

(** The result tree of a Run: the Result returned carries the tag of the
    node that was run; every Result in the tree has either no children or
    exactly two, both non-nil, and a Background Result has none; the only
    Result marked skipped is the empty Single one that And and Or put in
    place of the operand they did not run. *)
Theorem Run_result_tree (e : Executable) (c : Context) (w w' : World)
    (r : Result) (err : option error) :
  Run os e c w = Done (r, err) w' ->
  Type_ r = tagOf e /\
  forall d, subresult d r ->
    (Children d = [] \/ exists l x, Children d = [Some l; Some x]) /\
    (Type_ d = OpSingle \/ Type_ d = OpBackground -> Children d = []) /\
    (Type_ d = OpAnd \/ Type_ d = OpOr -> length (Children d) = 2) /\
    (Skipped d = true -> d = skippedResult).
Proof.
  intros H. split.
  { apply (proj1 (Run_startProcess_shaped os e)) in H. apply H. }
  intros d Hd. pose proof (Run_shaped_tree e c w r err w' d H Hd) as S.
  clear H Hd. inversion S as [r0 T K|E0|r0 T K|r0 T K|r0 l x T K]; subst.
  - rewrite K. repeat split; auto.
    + intros [E|E]; rewrite T in E; discriminate E.
    + intros E. congruence.
  - repeat split; auto. intros [E|E]; discriminate E.
  - rewrite K. repeat split; auto.
    + intros [E|E]; rewrite T in E; discriminate E.
    + intros E. congruence.
  - rewrite K. repeat split; auto.
    + intros [E|E]; rewrite T in E; discriminate E.
    + intros E. congruence.
  - rewrite K. repeat split; eauto.
    + intros [E|E]; destruct T as [T|[T|T]]; rewrite T in E; discriminate E.
    + intros E. congruence.
Qed.

End ShapeTheorems.


(** ** Which processes a run starts *)

Section Spawns.

Variable os : OS.

Lemma spawnsIn_ret {A : Type} (ps : list Process) (a : A) :
  spawnsIn ps (ret a).
Proof.
  intros w b w' H. apply ret_Done in H. destruct H as [_ <-].
  exists []. split; [symmetry; apply app_nil_r|apply sublist_nil_l].
Qed.

Lemma spawnsIn_panic {A : Type} (ps : list Process) (msg : string) :
  spawnsIn ps (@panic A msg).
Proof. intros w a w' H. discriminate H. Qed.

Lemma spawnsIn_deref {A : Type} (ps : list Process) (p : option A) :
  spawnsIn ps (deref p).
Proof. destruct p; [apply spawnsIn_ret|apply spawnsIn_panic]. Qed.

Lemma spawnsIn_emit (ps : list Process) (ev : Event) :
  spawned [ev] = [] -> spawnsIn ps (emit ev).
Proof.
  intros Q w a w' H. apply emit_Done in H. subst w'.
  exists [ev]. split; [reflexivity|]. rewrite Q. apply sublist_nil_l.
Qed.

Lemma spawnsIn_weaken {A : Type} (ps qs : list Process) (m : M A) :
  sublist ps qs -> spawnsIn ps m -> spawnsIn qs m.
Proof.
  intros S H w a w' E. destruct (H w a w' E) as (evs & -> & S').
  exists evs. split; [reflexivity|]. etransitivity; eassumption.
Qed.

Lemma spawnsIn_bind {A B : Type} (ps qs : list Process) (m : M A)
    (k : A -> M B) :
  spawnsIn ps m -> (forall a, spawnsIn qs (k a)) ->
  spawnsIn (ps ++ qs) (bind m k).
Proof.
  intros Hm Hk w b w' H. apply bind_Done in H.
  destruct H as (a & w1 & H1 & H2).
  destruct (Hm _ _ _ H1) as (e1 & -> & S1).
  destruct (Hk _ _ _ _ H2) as (e2 & -> & S2).
  exists (e1 ++ e2). split; [symmetry; apply app_assoc|].
  rewrite spawned_app. apply sublist_app; assumption.
Qed.

Lemma spawnsIn_bind_l {A B : Type} (ps : list Process) (m : M A)
    (k : A -> M B) :
  spawnsIn ps m -> (forall a, spawnsIn [] (k a)) -> spawnsIn ps (bind m k).
Proof.
  intros Hm Hk. rewrite <- (app_nil_r ps). apply spawnsIn_bind; assumption.
Qed.

Lemma spawnsIn_bind_r {A B : Type} (ps : list Process) (m : M A)
    (k : A -> M B) :
  spawnsIn [] m -> (forall a, spawnsIn ps (k a)) -> spawnsIn ps (bind m k).
Proof.
  intros Hm Hk. change ps with ([] ++ ps). apply spawnsIn_bind; assumption.
Qed.

Lemma spawnsIn_nil_Run (ps : list Process) (c : Context) :
  spawnsIn ps (nil_Run c).
Proof. apply spawnsIn_panic. Qed.

Lemma spawnsIn_nil_startProcess (ps : list Process) (v : ExecutionVisitor) :
  spawnsIn ps (nil_startProcess v).
Proof. apply spawnsIn_panic. Qed.

Lemma spawnsIn_Exec (p : Process) (c : Context) : spawnsIn [p] (Exec os p c).
Proof.
  intros w r w' H. apply Exec_Done in H.
  destruct H as [(err & _ & ->)|(_ & _ & ->)].
  - exists []. split; [symmetry; apply app_nil_r|apply sublist_nil_l].
  - exists [EvSpawn p]. split; [reflexivity|]. simpl. reflexivity.
Qed.

Create HintDb spawns.
#[local] Hint Resolve spawnsIn_ret spawnsIn_panic spawnsIn_deref
  spawnsIn_nil_Run spawnsIn_nil_startProcess spawnsIn_Exec : spawns.
#[local] Hint Extern 1 (spawnsIn _ (emit _)) =>
  apply spawnsIn_emit; reflexivity : spawns.

(** Split a computation at its binds, giving each part its share of the
    processes. *)
Ltac spawns :=
  repeat first
    [ progress auto with spawns
    | match goal with
      | |- spawnsIn _ (match ?x with _ => _ end) => destruct x
      | |- spawnsIn _ (if ?x then _ else _) => destruct x
      | |- spawnsIn _ (let (_, _) := ?x in _) => destruct x
      | |- spawnsIn (_ ++ _) (bind _ _) =>
          apply spawnsIn_bind; [solve [auto with spawns]|intros ?]
      | |- spawnsIn _ (bind _ _) =>
          first [ apply spawnsIn_bind_r; [solve [auto with spawns]|intros ?]
                | apply spawnsIn_bind_l; [solve [auto with spawns]|intros ?] ]
      end ].

Lemma spawnsIn_VisitProcess v process :
  spawnsIn [process] (VisitProcess os v process).
Proof. unfold VisitProcess. spawns. Qed.

Lemma spawnsIn_executePipe pl pr v ls rs :
  (forall v, spawnsIn pl (ls v)) -> (forall v, spawnsIn pr (rs v)) ->
  spawnsIn (pl ++ pr) (executePipe os v ls rs).
Proof. intros HL HR. unfold executePipe. spawns. Qed.

Lemma spawnsIn_startNestedPipe pl pr v ls rs :
  (forall v, spawnsIn pl (ls v)) -> (forall v, spawnsIn pr (rs v)) ->
  spawnsIn (pl ++ pr) (startNestedPipe os v ls rs).
Proof. intros HL HR. unfold startNestedPipe. spawns. Qed.

Lemma spawnsIn_VisitPipe pl pr v ls rs :
  (forall v, spawnsIn pl (ls v)) -> (forall v, spawnsIn pr (rs v)) ->
  spawnsIn (pl ++ pr) (VisitPipe os v ls rs).
Proof.
  intros HL HR. unfold VisitPipe.
  pose proof (spawnsIn_executePipe pl pr v ls rs HL HR).
  destruct (ctx_Err (ctx v)); [apply spawnsIn_ret|].
  apply spawnsIn_bind_l; [assumption|intros ?]. spawns.
Qed.

Lemma spawnsIn_VisitAnd pl pr v lRun rRun :
  (forall c, spawnsIn pl (lRun c)) -> (forall c, spawnsIn pr (rRun c)) ->
  spawnsIn (pl ++ pr) (VisitAnd v lRun rRun).
Proof. intros HL HR. unfold VisitAnd. spawns. Qed.

Lemma spawnsIn_VisitOr pl pr v lRun rRun :
  (forall c, spawnsIn pl (lRun c)) -> (forall c, spawnsIn pr (rRun c)) ->
  spawnsIn (pl ++ pr) (VisitOr v lRun rRun).
Proof. intros HL HR. unfold VisitOr. spawns. Qed.

Lemma spawnsIn_VisitBackground pl v exec0 exec_Run :
  (forall c, spawnsIn pl (exec_Run c)) ->
  spawnsIn pl (VisitBackground v exec0 exec_Run).
Proof. intros HR. unfold VisitBackground. simpl. spawns. Qed.

Lemma spawnsIn_drainJobs v jobs : forall i result,
  spawnsIn [] (drainJobs os v i jobs result).
Proof.
  induction jobs as [|job rest IH]; intros i result; simpl;
    [apply spawnsIn_ret|].
  apply spawnsIn_bind_r; [|intros ?; apply IH].
  destruct (chan_recv (done job)) as [[bg ch]|];
    destruct (ctx_Err (ctx v)); try destruct (os_selectCtx os i); spawns.
Qed.

Lemma spawnsIn_WaitForBackground v result :
  spawnsIn [] (WaitForBackground os v result).
Proof.
  unfold WaitForBackground. pose proof (spawnsIn_drainJobs v). spawns.
Qed.

Lemma spawnsIn_Pipeline_Run pl pr operation l lRun rRun ls rs timeout c :
  (forall c, spawnsIn pl (lRun c)) -> (forall c, spawnsIn pr (rRun c)) ->
  (forall v, spawnsIn pl (ls v)) -> (forall v, spawnsIn pr (rs v)) ->
  spawnsIn (pl ++ pr) (Pipeline_Run os operation l lRun rRun ls rs timeout c).
Proof.
  intros HL HR SL SR. unfold Pipeline_Run.
  apply spawnsIn_bind_l.
  - unfold visit. destruct operation.
    + apply spawnsIn_panic.
    + apply spawnsIn_bind_l; [apply spawnsIn_VisitPipe; assumption|].
      intros [r0 e0]. apply spawnsIn_ret.
    + apply spawnsIn_bind_l; [apply spawnsIn_VisitAnd; assumption|].
      intros [r0 e0]. apply spawnsIn_ret.
    + apply spawnsIn_bind_l; [apply spawnsIn_VisitOr; assumption|].
      intros [r0 e0]. apply spawnsIn_ret.
    + apply (spawnsIn_weaken pl); [apply sublist_inserts_r; reflexivity|].
      apply spawnsIn_VisitBackground. assumption.
  - intros [[r0 e0] v0]. pose proof spawnsIn_WaitForBackground. spawns.
Qed.

Lemma spawnsIn_Run_startProcess (e : Executable) :
  (forall c, spawnsIn (leaves e) (Run os e c)) /\
  (forall v, spawnsIn (leaves e) (startProcess os v e)).
Proof.
  induction e as [process timeout|operation l r timeout [IHl IHsl] IHr]
    using Executable_tree_ind.
  - split.
    + intros c. simpl. apply spawnsIn_VisitProcess.
    + intros v. simpl. spawns.
  - set (pr := match r with Some x => leaves x | None => [] end).
    assert (HR : forall c, spawnsIn pr
                   (match r with Some x => Run os x | None => nil_Run end c)).
    { subst pr. destruct r as [x|];
        [apply (IHr x eq_refl)|apply spawnsIn_nil_Run]. }
    assert (SR : forall v, spawnsIn pr
                   (match r with
                    | Some x => fun v => startProcess os v x
                    | None => nil_startProcess
                    end v)).
    { subst pr. destruct r as [x|];
        [apply (IHr x eq_refl)|apply spawnsIn_nil_startProcess]. }
    split.
    + intros c. simpl. fold pr. apply spawnsIn_Pipeline_Run; assumption.
    + intros v. simpl. fold pr. destruct (OperationType_eqb operation OpPipe).
      * apply spawnsIn_startNestedPipe; assumption.
      * apply spawnsIn_bind_l.
        -- apply spawnsIn_Pipeline_Run; assumption.
        -- intros [r0 e0]. apply spawnsIn_ret.
Qed.

(** A run starts nothing but leaves of its tree: the processes started
    are a subsequence of the tree's leaves read left to right, so every
    leaf is started at most once, in that order, and the log of what went
    before is kept. *)
Theorem Run_spawns_leaves_in_order (e : Executable) (c : Context)
    (w w' : World) (r : Result) (err : option error) :
  Run os e c w = Done (r, err) w' ->
  exists evs, w' = w ++ evs /\ sublist (spawned evs) (leaves e).
Proof. apply (proj1 (spawnsIn_Run_startProcess e)). Qed.

End Spawns.


(** ** The combinators on heap objects *)

Section StoreCombinators.

Lemma load_timeout (h : list Store.Node) (fuel : nat) (e : Store.ref)
    (n : Store.Node) (t : Executable) :
  h !! e = Some n -> Store.load fuel h e = Some t ->
  shutdownTimeoutOf t = Store.timeoutOfNode n.
Proof.
  intros E H. destruct fuel as [|fuel]; [discriminate|].
  simpl in H. rewrite E in H.
  destruct n as [pr d|o l r d]; simpl.
  - inversion H. reflexivity.
  - destruct (Store.load fuel h l); [|discriminate].
    destruct r as [r'|]; [destruct (Store.load fuel h r')|];
      inversion H; reflexivity.
Qed.

Lemma load_alloc (h : list Store.Node) (fuel : nat) (o : OperationType)
    (e : Store.ref) (r : option Store.ref) (d : Duration) :
  Store.load (S fuel) (h ++ [Store.NPipeline o e r d]) (length h) =
    match Store.load fuel (h ++ [Store.NPipeline o e r d]) e with
    | None => None
    | Some lt =>
        match r with
        | None => Some (Pipeline o lt None d)
        | Some r' =>
            match Store.load fuel (h ++ [Store.NPipeline o e r d]) r' with
            | None => None
            | Some rt => Some (Pipeline o lt (Some rt) d)
            end
        end
    end.
Proof.
  simpl. rewrite lookup_app_r by lia. rewrite Nat.sub_diag. reflexivity.
Qed.

(** The heap combinators build what the tree combinators build: when the
    operands denote the trees [te] and [tn], each combinator succeeds and
    returns a fresh address that denotes the tree combinator's result on
    [te] and [tn]; every address that denoted a tree before denotes the
    same tree after. *)
Theorem combinators_build_trees (h : list Store.Node) (e next : Store.ref)
    (fuel : nat) (te tn : Executable) :
  Store.load fuel h e = Some te ->
  Store.load fuel h next = Some tn ->
  exists hp ha ho hb,
    Store.Pipe h e next = Some (hp, length h) /\
    Store.And h e next = Some (ha, length h) /\
    Store.Or h e next = Some (ho, length h) /\
    Store.Background h e = Some (hb, length h) /\
    Store.load (S fuel) hp (length h) = Some (Pipe te tn) /\
    Store.load (S fuel) ha (length h) = Some (And te tn) /\
    Store.load (S fuel) ho (length h) = Some (Or te tn) /\
    Store.load (S fuel) hb (length h) = Some (Background te) /\
    forall h', In h' [hp; ha; ho; hb] ->
      forall k q t, Store.load k h q = Some t -> Store.load k h' q = Some t.
Proof.
  intros He Hn.
  assert (E : exists n, h !! e = Some n).
  { destruct fuel as [|fuel]; [discriminate|]. simpl in He.
    destruct (h !! e) as [n|]; [eauto|discriminate]. }
  destruct E as [n E].
  pose proof (load_timeout h fuel e n te E He) as HT.
  unfold Store.Pipe, Store.And, Store.Or, Store.Background, Store.alloc.
  rewrite E. do 4 eexists.
  split; [reflexivity|]. split; [reflexivity|]. split; [reflexivity|].
  split; [reflexivity|].
  rewrite !load_alloc.
  rewrite !(load_app _ _ _ _ _ He), !(load_app _ _ _ _ _ Hn).
  unfold Pipe, And, Or, Background. rewrite HT.
  repeat (split; [reflexivity|]).
  intros h' [<-|[<-|[<-|[<-|[]]]]] k q t H; apply load_app; exact H.
Qed.

(** A combinator copies the receiver's timeout when the node is built.
    The new node is a fresh object and no existing object changes; a
    timeout assigned to the receiver afterwards is seen on the receiver,
    also as the operand of the new node, but the new node keeps the
    timeout the receiver had when it was built. *)
Theorem combinator_timeout_fixed_at_build (h h1 : list Store.Node)
    (e p : Store.ref) (n : Store.Node) (d : Duration) :
  h !! e = Some n ->
  combined h e h1 p ->
  p = length h /\
  (forall q node, h !! q = Some node -> h1 !! q = Some node) /\
  (exists o r,
     h1 !! p = Some (Store.NPipeline o e r (Store.timeoutOfNode n))) /\
  exists h2,
    Store.WithShutdownTimeout h1 e d = Some (h2, e) /\
    h2 !! e = Some (Store.setTimeout n d) /\
    (exists o r,
       h2 !! p = Some (Store.NPipeline o e r (Store.timeoutOfNode n))) /\
    forall fuel t,
      Store.load fuel h2 p = Some t ->
      shutdownTimeoutOf t = Store.timeoutOfNode n /\
      exists lt, Store.load (pred fuel) h2 e = Some lt /\
                 shutdownTimeoutOf lt = d.
Proof.
  intros E C.
  assert (Hlt : e < length h) by (eapply lookup_lt_Some; exact E).
  assert (B : exists o r,
             h1 = h ++ [Store.NPipeline o e r (Store.timeoutOfNode n)] /\
             p = length h).
  { unfold combined, Store.Pipe, Store.And, Store.Or, Store.Background,
      Store.alloc in C. rewrite E in C.
    destruct C as [[x C]|[[x C]|[[x C]|C]]]; inversion C; eauto. }
  destruct B as (o & r & -> & ->).
  set (node := Store.NPipeline o e r (Store.timeoutOfNode n)).
  assert (E1 : (h ++ [node]) !! e = Some n).
  { apply lookup_app_l_Some. exact E. }
  assert (P1 : (h ++ [node]) !! length h = Some node).
  { rewrite lookup_app_r by lia. rewrite Nat.sub_diag. reflexivity. }
  split; [reflexivity|].
  split; [intros q x Hq; apply lookup_app_l_Some; exact Hq|].
  split; [exists o, r; exact P1|].
  exists (<[e := Store.setTimeout n d]> (h ++ [node])).
  assert (E2 : (<[e := Store.setTimeout n d]> (h ++ [node])) !! e =
               Some (Store.setTimeout n d)).
  { rewrite (lookup_retimed _ e e n d E1), Nat.eqb_refl. reflexivity. }
  assert (P2 : (<[e := Store.setTimeout n d]> (h ++ [node])) !! length h =
               Some node).
  { etransitivity; [exact (lookup_retimed _ e (length h) n d E1)|].
    destruct (Nat.eqb (length h) e) eqn:K; [|exact P1].
    apply Nat.eqb_eq in K. lia. }
  split; [unfold Store.WithShutdownTimeout; rewrite E1; reflexivity|].
  split; [exact E2|]. split; [exists o, r; exact P2|].
  intros fuel t Ht.
  split; [exact (load_timeout _ _ _ _ _ P2 Ht)|].
  destruct fuel as [|fuel]; [discriminate|].
  assert (P3 : forall q : Store.ref, q = length h ->
            (<[e := Store.setTimeout n d]> (h ++ [node])) !! q = Some node).
  { intros q ->. exact P2. }
  cbn [Store.load] in Ht. rewrite (P3 _ eq_refl) in Ht. unfold node in Ht.
  cbn [pred].
  destruct (Store.load fuel _ e) as [lt|] eqn:L; [|discriminate].
  exists lt. split; [reflexivity|].
  rewrite (load_timeout _ _ _ _ _ E2 L).
  apply (proj2 (setTimeout_sameButTimeout n d)).
Qed.

End StoreCombinators.


(** ** The Run of a Background node *)

Section BackgroundRun.

Variable os : OS.

(** Running a Background node never fails and hands back nothing of the
    job but its error.  Whenever the run returns, the error returned is
    nil and the Result has exit code 0, no error, no output and no
    children, whatever the job did; the job was run under its own context.
    Under a run context that is not done the drain receives the job's
    completion and [BackgroundErrors] holds exactly the job's error, if it
    has one.  Under a run context that is done the drain may cancel the job
    instead, and then its error is dropped. *)
Theorem Run_Background_outcome (x : Executable) (r : option Executable)
    (t : Duration) (c : Context) (w w' : World) (res : Result)
    (err : option error) :
  Run os (Pipeline OpBackground x r t) c w = Done (res, err) w' ->
  err = None /\ Error res = None /\ ExitCode res = 0%Z /\
  Stdout res = [] /\ Children res = [] /\
  exists jr jerr w1,
    Run os x bgCtx (w ++ [EvLaunch x]) = Done (jr, jerr) w1 /\
    let reported := match Error jr with Some e => [e] | None => [] end in
    (w' = w1 ++ [EvDrain 1; EvAwait x] /\ BackgroundErrors res = reported \/
     w' = w1 ++ [EvDrain 1; EvCancel x] /\ BackgroundErrors res = [] /\
     ctx_Err c <> None) /\
    (ctx_Err c = None ->
     w' = w1 ++ [EvDrain 1; EvAwait x] /\ BackgroundErrors res = reported).
Proof.
  intros H. simpl in H. unfold Pipeline_Run, visit in H.
  apply bind_Done in H. destruct H as ([[r0 e0] v0] & w1 & HV & H).
  assert (J : exists jr jerr,
             Run os x bgCtx (w ++ [EvLaunch x]) = Done (jr, jerr) w1).
  { unfold VisitBackground in HV. simpl in HV.
    apply bind_Done in HV. destruct HV as ([] & w2 & HE & HV).
    apply emit_Done in HE. subst w2.
    apply bind_Done in HV. destruct HV as ([jr jerr] & w3 & HJ & HV).
    apply ret_Done in HV. destruct HV as [_ <-].
    exists jr, jerr. exact HJ. }
  destruct J as (jr & jerr & HJ).
  rewrite (VisitBackground_run os _ x w w1 jr jerr HJ) in HV.
  inversion HV; subst r0 e0 v0; clear HV.
  unfold WaitForBackground, bind, emit, ret in H. simpl in H.
  unfold bind, emit, ret in H. simpl in H.
  destruct (ctx_Err c) as [ce|] eqn:Hc.
  - destruct (os_selectCtx os 0).
    + inversion H; subst; clear H. simpl.
      repeat (split; [reflexivity|]).
      exists jr, jerr, w1. split; [exact HJ|]. split.
      * right. rewrite <- app_assoc. repeat split. discriminate.
      * intros K. discriminate K.
    + destruct (Error jr) as [e|] eqn:EJ; inversion H; subst; clear H; simpl;
        (repeat (split; [reflexivity|]));
        exists jr, jerr, w1; (split; [exact HJ|]); rewrite EJ;
        (split; [left; rewrite <- app_assoc; split; reflexivity
                |intros K; discriminate K]).
  - destruct (Error jr) as [e|] eqn:EJ; inversion H; subst; clear H; simpl;
      (repeat (split; [reflexivity|]));
      exists jr, jerr, w1; (split; [exact HJ|]); rewrite EJ;
      (split; [left|intros _]); rewrite <- app_assoc; split; reflexivity.
Qed.

End BackgroundRun.



(** ** Every background job meets a drain *)

Section Settled.

Variable os : OS.

Lemma launched_app (w1 w2 : World) :
  launched (w1 ++ w2) = launched w1 + launched w2.
Proof.
  induction w1 as [|ev w1 IH]; simpl; [reflexivity|].
  destruct ev; simpl; rewrite IH; reflexivity.
Qed.

Lemma settled_app (w1 w2 : World) :
  settled (w1 ++ w2) = settled w1 + settled w2.
Proof.
  induction w1 as [|ev w1 IH]; simpl; [reflexivity|].
  destruct ev; simpl; rewrite IH; reflexivity.
Qed.

Lemma settles_ret {A : Type} (a : A) : settles (ret a).
Proof.
  intros w b w' H. apply ret_Done in H. destruct H as [_ <-].
  exists []. split; [symmetry; apply app_nil_r|]. split; [reflexivity|].
  constructor.
Qed.

Lemma settles_panic {A : Type} (msg : string) : settles (@panic A msg).
Proof. intros w a w' H. discriminate H. Qed.

Lemma settles_deref {A : Type} (p : option A) : settles (deref p).
Proof. destruct p; [apply settles_ret|apply settles_panic]. Qed.

Lemma settles_bind {A B : Type} (m : M A) (k : A -> M B) :
  settles m -> (forall a, settles (k a)) -> settles (bind m k).
Proof.
  intros Hm Hk w b w' H. apply bind_Done in H.
  destruct H as (a & w1 & H1 & H2).
  destruct (Hm _ _ _ H1) as (e1 & -> & L1 & F1).
  destruct (Hk _ _ _ _ H2) as (e2 & -> & L2 & F2).
  exists (e1 ++ e2). split; [symmetry; apply app_assoc|].
  rewrite launched_app, settled_app. split; [lia|].
  apply Forall_app. split; assumption.
Qed.

Lemma settles_nil_Run (c : Context) : settles (nil_Run c).
Proof. apply settles_panic. Qed.

Lemma settles_nil_startProcess (v : ExecutionVisitor) :
  settles (nil_startProcess v).
Proof. apply settles_panic. Qed.

Lemma settles_Exec (p : Process) (c : Context) : settles (Exec os p c).
Proof.
  intros w r w' H. apply Exec_Done in H.
  destruct H as [(err & _ & ->)|(_ & _ & ->)].
  - exists []. split; [symmetry; apply app_nil_r|]. split; [reflexivity|].
    constructor.
  - exists [EvSpawn p]. split; [reflexivity|]. split; [reflexivity|].
    repeat constructor.
Qed.

Create HintDb settles.
#[local] Hint Resolve settles_ret settles_panic settles_deref
  settles_nil_Run settles_nil_startProcess settles_Exec : settles.

Ltac settles :=
  repeat first
    [ progress auto with settles
    | apply settles_bind; [|intros ?]
    | match goal with
      | |- settles (match ?x with _ => _ end) => destruct x
      | |- settles (if ?x then _ else _) => destruct x
      | |- settles (let (_, _) := ?x in _) => destruct x
      end ].

Lemma settles_VisitProcess v process : settles (VisitProcess os v process).
Proof. unfold VisitProcess. settles. Qed.

Lemma settles_executePipe v ls rs :
  (forall v, settles (ls v)) -> (forall v, settles (rs v)) ->
  settles (executePipe os v ls rs).
Proof. intros HL HR. unfold executePipe. settles. Qed.

Lemma settles_startNestedPipe v ls rs :
  (forall v, settles (ls v)) -> (forall v, settles (rs v)) ->
  settles (startNestedPipe os v ls rs).
Proof. intros HL HR. unfold startNestedPipe. settles. Qed.

Lemma settles_VisitPipe v ls rs :
  (forall v, settles (ls v)) -> (forall v, settles (rs v)) ->
  settles (VisitPipe os v ls rs).
Proof.
  intros HL HR. unfold VisitPipe.
  pose proof (settles_executePipe v ls rs HL HR). settles.
Qed.

Lemma settles_VisitAnd v lRun rRun :
  (forall c, settles (lRun c)) -> (forall c, settles (rRun c)) ->
  settles (VisitAnd v lRun rRun).
Proof. intros HL HR. unfold VisitAnd. settles. Qed.

Lemma settles_VisitOr v lRun rRun :
  (forall c, settles (lRun c)) -> (forall c, settles (rRun c)) ->
  settles (VisitOr v lRun rRun).
Proof. intros HL HR. unfold VisitOr. settles. Qed.

(** The loop of the drain is done with every job it is given. *)
Lemma drainJobs_settles v jobs : forall i result w result' w',
  drainJobs os v i jobs result w = Done result' w' ->
  exists evs,
    w' = w ++ evs /\ launched evs = 0 /\ settled evs = length jobs /\
    Forall oneJob evs.
Proof.
  induction jobs as [|job rest IH]; intros i result w result' w' H; simpl in H.
  - apply ret_Done in H. destruct H as [_ <-].
    exists []. split; [symmetry; apply app_nil_r|]. repeat split. constructor.
  - apply bind_Done in H. destruct H as (r1 & w1 & H1 & H2).
    apply IH in H2. destruct H2 as (e2 & -> & L2 & S2 & F2).
    assert (E1 : w1 = w ++ [EvAwait (exec job)] \/
                 w1 = w ++ [EvCancel (exec job)]).
    { destruct (chan_recv (done job)) as [[bg ch]|];
        destruct (ctx_Err (ctx v)); try destruct (os_selectCtx os i);
        try discriminate H1;
        apply bind_Done in H1; destruct H1 as ([] & w2 & HE & H1);
        apply emit_Done in HE; subst w2;
        try destruct (Error bg);
        apply ret_Done in H1; destruct H1 as [_ <-]; auto. }
    destruct E1 as [-> | ->].
    + exists (EvAwait (exec job) :: e2).
      split; [rewrite <- app_assoc; reflexivity|]. simpl.
      split; [exact L2|]. split; [rewrite S2; reflexivity|].
      constructor; [exact I|exact F2].
    + exists (EvCancel (exec job) :: e2).
      split; [rewrite <- app_assoc; reflexivity|]. simpl.
      split; [exact L2|]. split; [rewrite S2; reflexivity|].
      constructor; [exact I|exact F2].
Qed.

Lemma WaitForBackground_settles v result w result' w' :
  length (backgroundJobs v) <= 1 ->
  WaitForBackground os v result w = Done result' w' ->
  exists evs,
    w' = w ++ evs /\ launched evs = 0 /\
    settled evs = length (backgroundJobs v) /\ Forall oneJob evs.
Proof.
  intros Hn H. unfold WaitForBackground in H.
  apply bind_Done in H. destruct H as ([] & w1 & HE & H).
  apply emit_Done in HE. subst w1.
  destruct (Nat.eqb (length (backgroundJobs v)) 0) eqn:E.
  - apply Nat.eqb_eq in E. apply ret_Done in H. destruct H as [_ <-].
    exists [EvDrain (length (backgroundJobs v))].
    split; [reflexivity|]. simpl. rewrite E.
    repeat split. constructor; [simpl; lia|constructor].
  - apply drainJobs_settles in H. destruct H as (e2 & -> & L2 & S2 & F2).
    exists (EvDrain (length (backgroundJobs v)) :: e2).
    split; [rewrite <- app_assoc; reflexivity|]. simpl.
    split; [exact L2|]. split; [exact S2|].
    constructor; [exact Hn|exact F2].
Qed.

(** A visit that reports an error has registered no job. *)
Lemma visit_jobs_or_none operation l lRun rRun ls rs timeout c w r e0 v0 w1 :
  visit os {| ctx := c; shutdownTimeout := timeout; backgroundJobs := [] |}
        operation l lRun rRun ls rs w = Done (r, e0, v0) w1 ->
  forall e, e0 = Some e -> backgroundJobs v0 = [].
Proof.
  intros H e ->. destruct operation; simpl in H.
  - discriminate H.
  - apply bind_Done in H. destruct H as ([r1 e1] & w2 & _ & H).
    apply ret_Done in H. destruct H as [H _]. inversion H. reflexivity.
  - apply bind_Done in H. destruct H as ([r1 e1] & w2 & _ & H).
    apply ret_Done in H. destruct H as [H _]. inversion H. reflexivity.
  - apply bind_Done in H. destruct H as ([r1 e1] & w2 & _ & H).
    apply ret_Done in H. destruct H as [H _]. inversion H. reflexivity.
  - apply VisitBackground_Done in H. destruct H as (_ & K & _). discriminate K.
Qed.

(** After the visit of a node, the jobs not yet done with are those on the
    visitor's list: none, or the one a Background node launched. *)
Lemma visit_settles operation l lRun rRun ls rs timeout c w r e0 v0 w1 :
  (forall c, settles (lRun c)) -> (forall c, settles (rRun c)) ->
  (forall v, settles (ls v)) -> (forall v, settles (rs v)) ->
  visit os {| ctx := c; shutdownTimeout := timeout; backgroundJobs := [] |}
        operation l lRun rRun ls rs w = Done (r, e0, v0) w1 ->
  exists evs,
    w1 = w ++ evs /\
    launched evs = settled evs + length (backgroundJobs v0) /\
    Forall oneJob evs /\
    length (backgroundJobs v0) <= 1.
Proof.
  intros HL HR SL SR H.
  set (v := {| ctx := c; shutdownTimeout := timeout; backgroundJobs := [] |})
    in *.
  assert (Q : forall (m : M (Result * option error)),
             settles m ->
             bind m (fun '(result, err) => ret (result, err, v)) w =
               Done (r, e0, v0) w1 ->
             exists evs,
               w1 = w ++ evs /\
               launched evs = settled evs + length (backgroundJobs v0) /\
               Forall oneJob evs /\ length (backgroundJobs v0) <= 1).
  { intros m Hm K. apply bind_Done in K.
    destruct K as ([r1 e1] & w2 & K1 & K2).
    apply ret_Done in K2. destruct K2 as [K2 <-]. inversion K2; subst.
    destruct (Hm _ _ _ K1) as (evs & -> & L & F).
    exists evs. simpl. split; [reflexivity|]. split; [lia|].
    split; [exact F|lia]. }
  destruct operation; simpl in H.
  - discriminate H.
  - apply (Q _ (settles_VisitPipe v ls rs SL SR) H).
  - apply (Q _ (settles_VisitAnd v lRun rRun HL HR) H).
  - apply (Q _ (settles_VisitOr v lRun rRun HL HR) H).
  - unfold VisitBackground in H. simpl in H.
    apply bind_Done in H. destruct H as ([] & w2 & HE & H).
    apply emit_Done in HE. subst w2.
    apply bind_Done in H. destruct H as ([jr jerr] & w3 & HJ & H).
    apply ret_Done in H. destruct H as [H <-]. inversion H; subst. clear H.
    destruct (HL _ _ _ _ HJ) as (evs & -> & L & F).
    exists (EvLaunch l :: evs).
    split; [rewrite <- app_assoc; reflexivity|]. simpl.
    split; [lia|]. split; [constructor; [exact I|exact F]|lia].
Qed.

Lemma settles_Pipeline_Run operation l lRun rRun ls rs timeout c :
  (forall c, settles (lRun c)) -> (forall c, settles (rRun c)) ->
  (forall v, settles (ls v)) -> (forall v, settles (rs v)) ->
  settles (Pipeline_Run os operation l lRun rRun ls rs timeout c).
Proof.
  intros HL HR SL SR w a w' H. unfold Pipeline_Run in H.
  apply bind_Done in H. destruct H as ([[r0 e0] v0] & w1 & HV & H).
  pose proof (visit_jobs_or_none _ _ _ _ _ _ _ _ _ _ _ _ _ HV) as HJ.
  apply (visit_settles operation l lRun rRun ls rs timeout c w r0 e0 v0 w1
           HL HR SL SR) in HV.
  destruct HV as (e1 & -> & L1 & F1 & N1).
  destruct e0 as [e|].
  - apply ret_Done in H. destruct H as [_ <-].
    exists e1. split; [reflexivity|]. split; [|exact F1].
    rewrite (HJ e eq_refl) in L1. simpl in L1. lia.
  - apply bind_Done in H. destruct H as (r1 & w2 & HW & H).
    apply ret_Done in H. destruct H as [_ <-].
    apply (WaitForBackground_settles _ _ _ _ _ N1) in HW.
    destruct HW as (e2 & -> & L2 & S2 & F2).
    exists (e1 ++ e2). split; [symmetry; apply app_assoc|].
    rewrite launched_app, settled_app. split; [lia|].
    apply Forall_app. split; assumption.
Qed.

Lemma settles_Run_startProcess (e : Executable) :
  (forall c, settles (Run os e c)) /\
  (forall v, settles (startProcess os v e)).
Proof.
  induction e as [process timeout|operation l r timeout [IHl IHsl] IHr]
    using Executable_tree_ind.
  - split.
    + intros c. simpl. apply settles_VisitProcess.
    + intros v. simpl. settles.
  - assert (HR : forall c, settles
                   (match r with Some x => Run os x | None => nil_Run end c)).
    { destruct r as [x|]; [apply (IHr x eq_refl)|apply settles_nil_Run]. }
    assert (SR : forall v, settles
                   (match r with
                    | Some x => fun v => startProcess os v x
                    | None => nil_startProcess
                    end v)).
    { destruct r as [x|];
        [apply (IHr x eq_refl)|apply settles_nil_startProcess]. }
    split.
    + intros c. simpl. apply settles_Pipeline_Run; assumption.
    + intros v. simpl. destruct (OperationType_eqb operation OpPipe).
      * apply settles_startNestedPipe; assumption.
      * apply settles_bind.
        -- apply settles_Pipeline_Run; assumption.
        -- intros [r0 e0]. apply settles_ret.
Qed.

(** Every background job is dealt with by the Run that launched it:
    whenever a Run returns, with or without an error, each job launched
    during it, at any depth, has been handled once by a drain, which
    received its completion or called its cancel; and no drain ever finds
    more than one job on its list. *)
Theorem Run_settles_its_jobs (e : Executable) (c : Context) (w w' : World)
    (r : Result) (err : option error) :
  Run os e c w = Done (r, err) w' ->
  exists evs,
    w' = w ++ evs /\ launched evs = settled evs /\ Forall oneJob evs.
Proof. apply (proj1 (settles_Run_startProcess e)). Qed.

End Settled.


(** ** A Pipe whose left operand does not start *)

Section PipeLeftFailure.

Variable os : OS.

(** When the left operand of a Pipe fails to start under a context that is
    not done, the run fails cleanly: the right operand is never started,
    the error returned is left's start error, the Result mirrors the exit
    code of left's Result (which is not 0), has no output, and its children
    are left's Result and a Single Result with exit code -1 standing for
    the right operand. *)
Theorem Pipe_left_start_failure (l r : Executable) (t : Duration)
    (c : Context) (w w1 : World) (lrun : option ProcessRunner)
    (lres : option Result) (e : error) :
  ctx_Err c = None ->
  startProcess os {| ctx := c; shutdownTimeout := t; backgroundJobs := [] |}
    l w = Done (lrun, lres, Some e) w1 ->
  exists lr res,
    lres = Some lr /\
    Run os (Pipeline OpPipe l (Some r) t) c w = Done (res, Some e) w1 /\
    Error res = Some e /\
    ExitCode res = ExitCode lr /\ ExitCode lr <> 0%Z /\
    Stdout res = [] /\
    Children res = [Some lr; Some notStarted].
Proof.
  intros Hc HL.
  set (v := {| ctx := c; shutdownTimeout := t; backgroundJobs := [] |}) in *.
  pose proof (proj2 (Run_startProcess_good os l) v w _ w1 HL) as G.
  simpl in G. destruct G as (lr & -> & El & Zl & _).
  exists lr.
  assert (NZ : ExitCode lr <> 0%Z).
  { intros Z0. destruct (Zl Z0) as (_ & ce & Hce & _).
    rewrite Hc in Hce. discriminate Hce. }
  change (Run os (Pipeline OpPipe l (Some r) t) c)
    with (Pipeline_Run os OpPipe l (Run os l) (Run os r)
            (fun v => startProcess os v l) (fun v => startProcess os v r) t c).
  unfold Pipeline_Run, visit, VisitPipe. fold v. simpl ctx. rewrite Hc.
  unfold executePipe.
  unfold bind at 1 2 3 4. rewrite HL. cbv beta iota.
  unfold ret at 1. cbv beta iota. unfold bind at 1. unfold deref, ret at 1.
  cbv beta iota.
  destruct (Error lr) as [le|] eqn:EL; [|contradiction].
  unfold ret. cbv beta iota.
  eexists. split; [reflexivity|]. split; [reflexivity|].
  simpl. repeat split. exact NZ.
Qed.

End PipeLeftFailure.


(** ** Shutdown timeouts do not change what a run returns *)

Section Timeouts.

Variable os : OS.

Lemma sim_ret_id {A : Type} (a : A) : sim id (ret a) (ret a).
Proof. intros w. reflexivity. Qed.

Lemma sim_panic {A B : Type} (f : A -> B) (msg : string) :
  sim f (panic msg) (panic msg).
Proof. intros w. reflexivity. Qed.

Lemma sim_deref {A : Type} (p : option A) : sim id (deref p) (deref p).
Proof. destruct p; [apply sim_ret_id|apply sim_panic]. Qed.

Lemma sim_emit (ev : Event) : sim id (emit ev) (emit (eraseEv ev)).
Proof. intros w. unfold emit. simpl. rewrite map_app. reflexivity. Qed.

Lemma sim_bind {A A' B B' : Type} (f : A -> A') (g : B -> B')
    (m : M A) (m' : M A') (k : A -> M B) (k' : A' -> M B') :
  sim f m m' -> (forall a, sim g (k a) (k' (f a))) ->
  sim g (bind m k) (bind m' k').
Proof.
  intros Hm Hk w. unfold bind. rewrite Hm.
  destruct (m w) as [a w1|msg]; simpl; [apply Hk|reflexivity].
Qed.

Lemma sim_bind_id {A B B' : Type} (g : B -> B')
    (m m' : M A) (k : A -> M B) (k' : A -> M B') :
  sim id m m' -> (forall a, sim g (k a) (k' a)) ->
  sim g (bind m k) (bind m' k').
Proof. intros Hm Hk. apply (sim_bind id g); assumption. Qed.

Lemma sim_nil_Run (c : Context) : sim id (nil_Run c) (nil_Run c).
Proof. apply sim_panic. Qed.

Lemma sim_nil_startProcess (v v' : ExecutionVisitor) :
  sim id (nil_startProcess v) (nil_startProcess v').
Proof. apply sim_panic. Qed.

Lemma sim_Exec (p : Process) (c : Context) : sim id (Exec os p c) (Exec os p c).
Proof.
  intros w. unfold Exec, cmd_Start, bind, emit, ret.
  destruct (os_pipeErr os p); [reflexivity|].
  destruct (os_lookPathErr os p); [reflexivity|].
  destruct (ctx_Err c); [reflexivity|].
  destruct (os_startErr os p); [reflexivity|].
  simpl. rewrite map_app. reflexivity.
Qed.

Create HintDb sim.
#[local] Hint Resolve sim_ret_id sim_panic sim_deref sim_nil_Run
  sim_nil_startProcess sim_Exec : sim.
#[local] Hint Extern 1 (sim id (emit _) (emit _)) => apply sim_emit : sim.

Ltac sim :=
  repeat first
    [ progress auto with sim
    | apply sim_bind_id; [|intros ?]
    | match goal with
      | |- sim _ (match ?x with _ => _ end) _ => destruct x
      | |- sim _ (if ?x then _ else _) _ => destruct x
      | |- sim _ (let (_, _) := ?x in _) _ => destruct x
      end ].

Lemma sim_VisitProcess v process :
  sim id (VisitProcess os v process) (VisitProcess os (eraseVisitor v) process).
Proof. unfold VisitProcess. simpl. sim. Qed.

Lemma sim_executePipe v ls rs ls' rs' :
  (forall v, sim id (ls v) (ls' (eraseVisitor v))) ->
  (forall v, sim id (rs v) (rs' (eraseVisitor v))) ->
  sim id (executePipe os v ls rs) (executePipe os (eraseVisitor v) ls' rs').
Proof. intros HL HR. unfold executePipe. sim. Qed.

Lemma sim_startNestedPipe v ls rs ls' rs' :
  (forall v, sim id (ls v) (ls' (eraseVisitor v))) ->
  (forall v, sim id (rs v) (rs' (eraseVisitor v))) ->
  sim id (startNestedPipe os v ls rs)
         (startNestedPipe os (eraseVisitor v) ls' rs').
Proof. intros HL HR. unfold startNestedPipe. sim. Qed.

Lemma sim_VisitPipe v ls rs ls' rs' :
  (forall v, sim id (ls v) (ls' (eraseVisitor v))) ->
  (forall v, sim id (rs v) (rs' (eraseVisitor v))) ->
  sim id (VisitPipe os v ls rs) (VisitPipe os (eraseVisitor v) ls' rs').
Proof.
  intros HL HR. unfold VisitPipe. simpl.
  pose proof (sim_executePipe v ls rs ls' rs' HL HR). sim.
Qed.

Lemma sim_VisitAnd v lRun rRun lRun' rRun' :
  (forall c, sim id (lRun c) (lRun' c)) ->
  (forall c, sim id (rRun c) (rRun' c)) ->
  sim id (VisitAnd v lRun rRun) (VisitAnd (eraseVisitor v) lRun' rRun').
Proof. intros HL HR. unfold VisitAnd. simpl. sim. Qed.

Lemma sim_VisitOr v lRun rRun lRun' rRun' :
  (forall c, sim id (lRun c) (lRun' c)) ->
  (forall c, sim id (rRun c) (rRun' c)) ->
  sim id (VisitOr v lRun rRun) (VisitOr (eraseVisitor v) lRun' rRun').
Proof. intros HL HR. unfold VisitOr. simpl. sim. Qed.

(** The triple a visit returns, with its visitor erased. *)
Lemma sim_VisitBackground v x xRun xRun' :
  (forall c, sim id (xRun c) (xRun' c)) ->
  sim (fun '(r, e, v0) => (r, e, eraseVisitor v0))
      (VisitBackground v x xRun)
      (VisitBackground (eraseVisitor v) (erase x) xRun').
Proof.
  intros HX w. unfold VisitBackground. simpl.
  unfold bind, emit.
  replace (map eraseEv w ++ [EvLaunch (erase x)])
    with (map eraseEv (w ++ [EvLaunch x])) by (rewrite map_app; reflexivity).
  rewrite HX.
  destruct (xRun _ _) as [[jr jerr] w1|msg]; simpl; [|reflexivity].
  unfold ret, eraseVisitor. simpl. rewrite map_app. reflexivity.
Qed.

Lemma sim_drainJobs v jobs : forall i result,
  sim id (drainJobs os v i jobs result)
         (drainJobs os (eraseVisitor v) i (map eraseJob jobs) result).
Proof.
  induction jobs as [|job rest IH]; intros i result; simpl;
    [apply sim_ret_id|].
  apply sim_bind_id; [|intros ?; apply IH].
  destruct (chan_recv (done job)) as [[bg ch]|];
    destruct (ctx_Err (ctx v)); try destruct (os_selectCtx os i); sim.
Qed.

Lemma sim_WaitForBackground v result :
  sim id (WaitForBackground os v result)
         (WaitForBackground os (eraseVisitor v) result).
Proof.
  unfold WaitForBackground. simpl. rewrite length_map.
  pose proof (sim_drainJobs v). sim.
Qed.

Lemma sim_Pipeline_Run operation l lRun rRun ls rs lRun' rRun' ls' rs'
      timeout c :
  (forall c, sim id (lRun c) (lRun' c)) ->
  (forall c, sim id (rRun c) (rRun' c)) ->
  (forall v, sim id (ls v) (ls' (eraseVisitor v))) ->
  (forall v, sim id (rs v) (rs' (eraseVisitor v))) ->
  sim id (Pipeline_Run os operation l lRun rRun ls rs timeout c)
         (Pipeline_Run os operation (erase l) lRun' rRun' ls' rs' 0%Z c).
Proof.
  intros HL HR SL SR. unfold Pipeline_Run.
  set (v := {| ctx := c; shutdownTimeout := timeout; backgroundJobs := [] |}).
  change {| ctx := c; shutdownTimeout := 0%Z; backgroundJobs := [] |}
    with (eraseVisitor v).
  apply (sim_bind (fun '(r, e, v0) => (r, e, eraseVisitor v0)) id).
  - unfold visit. destruct operation.
    + apply sim_panic.
    + apply (sim_bind id); [apply sim_VisitPipe; assumption|].
      intros [r0 e0] w0. reflexivity.
    + apply (sim_bind id); [apply sim_VisitAnd; assumption|].
      intros [r0 e0] w0. reflexivity.
    + apply (sim_bind id); [apply sim_VisitOr; assumption|].
      intros [r0 e0] w0. reflexivity.
    + apply sim_VisitBackground. assumption.
  - intros [[r0 e0] v0]. pose proof sim_WaitForBackground. sim.
Qed.

Lemma sim_Run_startProcess (e : Executable) :
  (forall c, sim id (Run os e c) (Run os (erase e) c)) /\
  (forall v, sim id (startProcess os v e)
                    (startProcess os (eraseVisitor v) (erase e))).
Proof.
  induction e as [process timeout|operation l r timeout [IHl IHsl] IHr]
    using Executable_tree_ind.
  - split.
    + intros c. simpl.
      apply (sim_VisitProcess
               {| ctx := c; shutdownTimeout := timeout; backgroundJobs := [] |}).
    + intros v. simpl. sim.
  - assert (HR : forall c, sim id
                   (match r with Some x => Run os x | None => nil_Run end c)
                   (match r with
                    | Some x => Run os (erase x)
                    | None => nil_Run
                    end c)).
    { destruct r as [x|]; [apply (IHr x eq_refl)|apply sim_nil_Run]. }
    assert (SR : forall v, sim id
                   (match r with
                    | Some x => fun v => startProcess os v x
                    | None => nil_startProcess
                    end v)
                   (match r with
                    | Some x => fun v => startProcess os v (erase x)
                    | None => nil_startProcess
                    end (eraseVisitor v))).
    { destruct r as [x|]; [apply (IHr x eq_refl)|].
      intros v w0. reflexivity. }
    assert (P : forall c,
               sim id (Run os (Pipeline operation l r timeout) c)
                      (Run os (erase (Pipeline operation l r timeout)) c)).
    { intros c. destruct r as [x|]; simpl;
        apply (sim_Pipeline_Run operation l _ _ _ _ _ _ _ _ timeout c);
        assumption. }
    split; [exact P|].
    intros v. specialize (P (ctx v)).
    simpl. simpl in P. destruct (OperationType_eqb operation OpPipe).
    + destruct r as [x|];
        apply (sim_startNestedPipe v _ _ _ _ IHsl SR).
    + apply sim_bind_id.
      * destruct r as [x|]; exact P.
      * intros [r0 e0]. apply sim_ret_id.
Qed.

Lemma spawned_erased (w : World) : spawned (map eraseEv w) = spawned w.
Proof.
  induction w as [|ev w IH]; simpl; [reflexivity|].
  destruct ev; simpl; rewrite ?IH; reflexivity.
Qed.

(** Shutdown timeouts do not change what a run returns.  Two trees that
    differ in their timeouts only, run under the same context from the same
    log, end alike: if one returns, the other returns the same Result and
    the same error, having started the same processes in the same order and
    logged the same events up to the timeouts inside them; if one panics,
    so does the other. *)
Theorem Run_ignores_timeouts (e e' : Executable) (c : Context) (w : World) :
  erase e = erase e' ->
  eraseOutcome id (Run os e c w) = eraseOutcome id (Run os e' c w) /\
  forall r err w',
    Run os e c w = Done (r, err) w' ->
    exists w'',
      Run os e' c w = Done (r, err) w'' /\
      map eraseEv w'' = map eraseEv w' /\ spawned w'' = spawned w'.
Proof.
  intros E.
  assert (Q : eraseOutcome id (Run os e c w) = eraseOutcome id (Run os e' c w)).
  { rewrite <- (proj1 (sim_Run_startProcess e) c w).
    rewrite <- (proj1 (sim_Run_startProcess e') c w).
    rewrite E. reflexivity. }
  split; [exact Q|].
  intros r err w' H. rewrite H in Q. simpl in Q.
  destruct (Run os e' c w) as [[r2 err2] w2|msg]; simpl in Q;
    [|discriminate Q].
  inversion Q as [[Q1 Q2 Q3]]. unfold id in *. subst r2 err2.
  exists w2. split; [reflexivity|]. split; [symmetry; exact Q3|].
  rewrite <- (spawned_erased w2), <- (spawned_erased w'), Q3. reflexivity.
Qed.

End Timeouts.

(** ** The further properties at work on concrete trees *)



Lemma Run_Stderr_empty_witness :
  Run sh (And (echo "a") false_) live [] =
    Done (resultOf (Run sh (And (echo "a") false_) live []),
          Some (ExitError (Exited 1)))
         (worldOf (Run sh (And (echo "a") false_) live [])) /\
  subresult (resultOf (Run sh false_ live []))
            (resultOf (Run sh (And (echo "a") false_) live [])) /\
  Stderr (resultOf (Run sh false_ live [])) = [].
Proof.
  assert (S : subresult (resultOf (Run sh false_ live []))
                (resultOf (Run sh (And (echo "a") false_) live []))).
  { eapply subresult_child; [right; left; reflexivity|apply subresult_refl]. }
  split; [reflexivity|]. split; [exact S|].
  exact (Run_Stderr_empty sh (And (echo "a") false_) live [] _ _ _ _
           eq_refl S).
Defined.

Lemma Run_BackgroundErrors_on_Background_only_witness :
  exists d,
    Children (resultOf (Run sh (And (Background false_) (echo "a")) live []))
      !! 0 = Some (Some d) /\
    BackgroundErrors d = [ExitError (Exited 1)] /\
    BackgroundErrors
      (resultOf (Run sh (And (Background false_) (echo "a")) live [])) = [] /\
    Type_ d = OpBackground.
Proof.
  eexists. split; [reflexivity|]. split; [reflexivity|].
  split; [reflexivity|].
  eapply (Run_BackgroundErrors_on_Background_only sh
            (And (Background false_) (echo "a")) live []).
  - reflexivity.
  - eapply subresult_child; [left; reflexivity|apply subresult_refl].
  - discriminate.
Defined.

Lemma Run_result_tree_witness :
  Run sh (Or false_ (Pipe (echo "a") cat)) live [] =
    Done (resultOf (Run sh (Or false_ (Pipe (echo "a") cat)) live []), None)
         (worldOf (Run sh (Or false_ (Pipe (echo "a") cat)) live [])) /\
  Type_ (resultOf (Run sh (Or false_ (Pipe (echo "a") cat)) live [])) = OpOr /\
  length (Children (resultOf (Run sh (Or false_ (Pipe (echo "a") cat)) live [])))
    = 2.
Proof.
  split; [reflexivity|].
  destruct (Run_result_tree sh (Or false_ (Pipe (echo "a") cat)) live [] _ _ _
              eq_refl) as [T K].
  split; [exact T|].
  destruct (K _ (subresult_refl _)) as (_ & _ & K3 & _).
  apply K3. right. exact T.
Defined.

Lemma Run_spawns_leaves_in_order_witness :
  Run sh (And false_ (echo "a")) live [] =
    Done (resultOf (Run sh (And false_ (echo "a")) live []),
          Some (ExitError (Exited 1)))
         [EvSpawn {| Command := "false"; Args := [] |}] /\
  exists evs,
    [EvSpawn {| Command := "false"; Args := [] |}] = [] ++ evs /\
    sublist (spawned evs)
      [ {| Command := "false"; Args := [] |};
        {| Command := "echo"; Args := ["a"%string] |} ].
Proof.
  split; [reflexivity|].
  exact (Run_spawns_leaves_in_order sh (And false_ (echo "a")) live [] _ _ _
           eq_refl).
Defined.

Lemma combinators_build_trees_witness :
  Store.load 1 sample 0 = Some (echo "x") /\
  Store.load 1 sample 1 = Some cat /\
  exists hp ha,
    Store.Pipe sample 0 1 = Some (hp, 3) /\
    Store.And sample 0 1 = Some (ha, 3) /\
    Store.load 2 hp 3 = Some (Pipe (echo "x") cat) /\
    Store.load 2 ha 3 = Some (And (echo "x") cat) /\
    Store.load 2 hp 2 = Store.load 2 sample 2.
Proof.
  split; [reflexivity|]. split; [reflexivity|].
  destruct (combinators_build_trees sample 0 1 1 (echo "x") cat
              eq_refl eq_refl)
    as (hp & ha & ho & hb & H1 & H2 & _ & _ & H5 & H6 & _ & _ & H9).
  exists hp, ha. split; [exact H1|]. split; [exact H2|].
  split; [exact H5|]. split; [exact H6|].
  apply (H9 hp); [left; reflexivity|reflexivity].
Defined.

Lemma combinator_timeout_fixed_at_build_witness :
  combined sample 0
    (sample ++ [Store.NPipeline OpAnd 0 (Some 1) (5 * Second)%Z]) 3 /\
  exists h2,
    Store.WithShutdownTimeout
      (sample ++ [Store.NPipeline OpAnd 0 (Some 1) (5 * Second)%Z]) 0 Second =
      Some (h2, 0) /\
    h2 !! 0 =
      Some (Store.NProcess {| Command := "echo"; Args := ["x"%string] |} Second) /\
    exists o r, h2 !! 3 = Some (Store.NPipeline o 0 r (5 * Second)%Z).
Proof.
  assert (C : combined sample 0
                (sample ++ [Store.NPipeline OpAnd 0 (Some 1) (5 * Second)%Z]) 3).
  { right. left. exists 1. reflexivity. }
  split; [exact C|].
  destruct (combinator_timeout_fixed_at_build sample _ 0 3 _ Second
              eq_refl C)
    as (_ & _ & _ & h2 & H1 & H2 & H3 & _).
  exists h2. split; [exact H1|]. split; [exact H2|exact H3].
Defined.

Lemma Run_Background_outcome_witness :
  Run sh (Background false_) live [] =
    Done (resultOf (Run sh (Background false_) live []), None)
         (worldOf (Run sh (Background false_) live [])) /\
  Error (resultOf (Run sh (Background false_) live [])) = None /\
  ExitCode (resultOf (Run sh (Background false_) live [])) = 0%Z /\
  Stdout (resultOf (Run sh (Background false_) live [])) = [].
Proof.
  split; [reflexivity|].
  destruct (Run_Background_outcome sh false_ None (5 * Second)%Z live [] _ _ _
              eq_refl)
    as (_ & H2 & H3 & H4 & _).
  split; [exact H2|]. split; [exact H3|exact H4].
Defined.

Lemma Run_settles_its_jobs_witness :
  exists evs,
    worldOf (Run sh (And (Background false_) (Background (echo "a"))) live [])
      = [] ++ evs /\
    launched evs = 2 /\ settled evs = 2 /\ Forall oneJob evs.
Proof.
  destruct (Run_settles_its_jobs sh
              (And (Background false_) (Background (echo "a"))) live [] _ _ _
              eq_refl)
    as (evs & H1 & H2 & H3).
  exists evs. split; [exact H1|].
  simpl in H1. subst evs. split; [reflexivity|]. split; [reflexivity|exact H3].
Defined.


Lemma Pipe_left_start_failure_witness :
  ctx_Err live = None /\
  exists lr res,
    Run sh (Pipe missing (echo "x")) live [] =
      Done (res, Some (ErrorString "executable file not found in $PATH")) [] /\
    ExitCode lr = (-1)%Z /\
    ExitCode res = ExitCode lr /\
    Children res = [Some lr; Some notStarted].
Proof.
  split; [reflexivity|].
  destruct (Pipe_left_start_failure sh missing (echo "x") (5 * Second)%Z
              live [] [] _ _ _ eq_refl eq_refl)
    as (lr & res & H1 & H2 & _ & H4 & _ & _ & H7).
  exists lr, res. split; [exact H2|].
  inversion H1; subst lr. split; [reflexivity|]. split; [exact H4|exact H7].
Defined.


Lemma Run_ignores_timeouts_witness :
  erase (Pipeline OpBackground (sleep "0.1") None (5 * Second)%Z) =
    erase (Pipeline OpBackground
             (ExecutableProcess {| Command := "sleep"; Args := ["0.1"%string] |}
                Second) None 0%Z) /\
  exists w'',
    Run sh (Pipeline OpBackground
              (ExecutableProcess {| Command := "sleep"; Args := ["0.1"%string] |}
                 Second) None 0%Z) cancelled [] =
      Done (resultOf (Run sh (Background (sleep "0.1")) cancelled []),
            errorOf (Run sh (Background (sleep "0.1")) cancelled [])) w'' /\
    spawned w'' = spawned (worldOf (Run sh (Background (sleep "0.1")) cancelled [])).
Proof.
  split; [reflexivity|].
  destruct (Run_ignores_timeouts sh
              (Pipeline OpBackground (sleep "0.1") None (5 * Second)%Z)
              (Pipeline OpBackground
                 (ExecutableProcess
                    {| Command := "sleep"; Args := ["0.1"%string] |} Second)
                 None 0%Z)
              cancelled [] eq_refl) as [_ K].
  destruct (K _ _ _ eq_refl) as (w'' & H1 & _ & H3).
  exists w''. split; [exact H1|exact H3].
Defined.
